(** * Prompt template filling: field extraction, composition, section split

    A shallow embedding of the three text routines of the prompt catalogue
    front end ([extractFields], [buildPrompt], [parsePromptSections]) and the
    properties that its specification states about them.

    JavaScript strings are sequences of UTF-16 code units; none of the regular
    expressions of the source carries the [u] flag, so every one of them works
    on code units.  A string is therefore a [list Z] of code units. *)

From Stdlib Require Import ZArith List Lia Bool String Ascii Decimal DecimalNat DecimalString.
From stdpp Require Import base option list gmap.
Import ListNotations.

Local Open Scope Z_scope.

(* ===================================================================== *)
(** ** Strings *)
(* ===================================================================== *)

Abbreviation jsstring := (list Z).

Module Lit.
(** String literals of the source are written as UTF-8 text and decoded to
    UTF-16 code units. *)

Definition bytes (s : string) : list Z :=
  List.map (fun a => Z.of_N (N_of_ascii a)) (list_ascii_of_string s).

Fixpoint decodeUtf8 (bs : list Z) : list Z :=
  match bs with
  | [] => []
  | b :: r =>
      if b <? 0x80 then b :: decodeUtf8 r
      else if b <? 0xE0 then
        match r with
        | b2 :: r2 => ((b mod 32) * 64 + b2 mod 64) :: decodeUtf8 r2
        | _ => []
        end
      else if b <? 0xF0 then
        match r with
        | b2 :: b3 :: r3 =>
            ((b mod 16) * 4096 + (b2 mod 64) * 64 + b3 mod 64) :: decodeUtf8 r3
        | _ => []
        end
      else
        match r with
        | b2 :: b3 :: b4 :: r4 =>
            ((b mod 8) * 262144 + (b2 mod 64) * 4096 + (b3 mod 64) * 64 + b4 mod 64)
              :: decodeUtf8 r4
        | _ => []
        end
  end.

Definition toUtf16 (cp : Z) : list Z :=
  if cp <? 0x10000 then [cp]
  else let v := cp - 0x10000 in [0xD800 + v / 1024; 0xDC00 + v mod 1024].

Definition js (s : string) : jsstring := flat_map toUtf16 (decodeUtf8 (bytes s)).
End Lit.

Abbreviation js := Lit.js.

(** Code units that the source names. *)
Definition LF : Z := 10.           (* "\n" *)
Definition DOLLAR : Z := 36.       (* "$" *)
Definition AMP : Z := 38.          (* "&" *)
Definition QUOTE : Z := 39.        (* "'" *)
Definition SLASH : Z := 47.        (* "/" *)
Definition HYPHEN : Z := 45.       (* "-" *)
Definition COLON : Z := 58.        (* ":" *)
Definition LBRACK : Z := 91.       (* "[" *)
Definition RBRACK : Z := 93.       (* "]" *)
Definition BACKTICK : Z := 96.     (* "`" *)
Definition LBRACE : Z := 123.      (* "{" *)
Definition RBRACE : Z := 125.      (* "}" *)
Definition REFMARK : Z := 0x203B.  (* U+203B reference mark *)
Definition MIDDOT : Z := 0x30FB.   (* U+30FB katakana middle dot *)
Definition LLENT : Z := 0x3010.    (* U+3010 left black lenticular bracket *)
Definition RLENT : Z := 0x3011.    (* U+3011 right black lenticular bracket *)
Definition REI : Z := 0x4F8B.      (* U+4F8B, the example marker *)
Definition FWCOLON : Z := 0xFF1A.  (* U+FF1A fullwidth colon *)

(** [WhiteSpace] and [LineTerminator] of ECMAScript: what [trim] removes and
    what [\s] matches. *)
Definition isWhiteSpace (c : Z) : bool :=
  (c =? 9) || (c =? 10) || (c =? 11) || (c =? 12) || (c =? 13) || (c =? 32)
  || (c =? 0xA0) || (c =? 0x1680) || ((0x2000 <=? c) && (c <=? 0x200A))
  || (c =? 0x2028) || (c =? 0x2029) || (c =? 0x202F) || (c =? 0x205F)
  || (c =? 0x3000) || (c =? 0xFEFF).

Fixpoint trimStart (s : jsstring) : jsstring :=
  match s with
  | c :: s' => if isWhiteSpace c then trimStart s' else s
  | [] => []
  end.

Definition trimEnd (s : jsstring) : jsstring := rev (trimStart (rev s)).

(** [String.prototype.trim] *)
Definition trim (s : jsstring) : jsstring := trimEnd (trimStart s).

(** [s.substring(a, b)]: the arguments are swapped when [a > b] and clamped
    to the length. *)
Definition substring (s : jsstring) (a b : nat) : jsstring :=
  let lo := Nat.min a b in
  let hi := Nat.max a b in
  firstn (hi - lo) (skipn lo s).

(** [s.lastIndexOf(c, from)] for a one-unit search string: the largest index
    [k <= from] with [s[k] = c], and [-1] when there is none. *)
Fixpoint lastIndexOf (s : jsstring) (c : Z) (from : nat) : Z :=
  if nth from s (-1) =? c then Z.of_nat from
  else match from with
       | O => -1
       | S k => lastIndexOf s c k
       end.

(** [s.startsWith(p)] *)
Fixpoint startsWith (s p : jsstring) {struct p} : bool :=
  match p, s with
  | [], _ => true
  | a :: p', b :: s' => (a =? b) && startsWith s' p'
  | _ :: _, [] => false
  end.

(** [s.includes(c)] for a one-unit search string. *)
Definition includes (s : jsstring) (c : Z) : bool := existsb (Z.eqb c) s.

(** Decimal rendering of a number inside a template literal. *)
Definition numberToString (n : nat) : jsstring :=
  Lit.bytes (NilZero.string_of_uint (Nat.to_uint n)).

(** JavaScript truthiness of a string: only the empty string is falsy. *)
Definition truthy (s : jsstring) : bool :=
  match s with [] => false | _ => true end.

(** [a || b] on strings. *)
Definition orElse (a b : jsstring) : jsstring := if truthy a then a else b.

(* ===================================================================== *)
(** ** extractFields *)
(* ===================================================================== *)

(** [FormField].  The file [App.tsx] has the same [extractFields] and
    [buildPrompt] without the member [hint], and no section split; the
    fuller variant is the one embedded here. *)
Record FormField := mkField {
  id : jsstring;
  label : jsstring;
  placeholder : jsstring;
  hint : jsstring;
  original : jsstring
}.

(** The token pattern [/[\[{]([^\]{}]+)[\]}]/g]. *)

Definition isOpener (c : Z) : bool := (c =? LBRACK) || (c =? LBRACE).
Definition isCloser (c : Z) : bool := (c =? RBRACK) || (c =? RBRACE).
(** The class [[^\]{}]]: note that "[" belongs to it. *)
Definition isInner (c : Z) : bool :=
  negb ((c =? RBRACK) || (c =? LBRACE) || (c =? RBRACE)).

(** The greedy run [[^\]{}]*] at the head of [s], and what follows it. *)
Fixpoint spanInner (s : jsstring) : jsstring * jsstring :=
  match s with
  | c :: s' =>
      if isInner c then let (run, rest) := spanInner s' in (c :: run, rest)
      else ([], s)
  | [] => ([], [])
  end.

(** One attempt of the pattern at the head of [s]: [(match[0], match[1])].
    After the greedy run the next unit is the end of the input or one of
    "]", "{", "}"; giving units of the run back cannot help, because the unit
    that would then have to be a closer is a unit of the run.  So the attempt
    succeeds exactly when the run is not empty and a closer follows it. *)
Definition matchAt (s : jsstring) : option (jsstring * jsstring) :=
  match s with
  | o :: s1 =>
      if isOpener o then
        match spanInner s1 with
        | (c0 :: run, c :: _) =>
            if isCloser c then Some (o :: (c0 :: run) ++ [c], c0 :: run) else None
        | _ => None
        end
      else None
  | [] => None
  end.

Arguments matchAt : simpl never.

(** The search of [regex.exec]: the first position, from the head of [s]
    (which is at index [idx] of the subject), where an attempt succeeds. *)
Fixpoint execFrom (s : jsstring) (idx : nat) : option (nat * jsstring * jsstring) :=
  match matchAt s with
  | Some (m0, m1) => Some (idx, m0, m1)
  | None =>
      match s with
      | [] => None
      | _ :: s' => execFrom s' (S idx)
      end
  end.

(** [regex.exec(content)] with the given [lastIndex]:
    [(match.index, match[0], match[1])], or [None] for [null]. *)
Definition regexExec (content : jsstring) (lastIndex : nat)
  : option (nat * jsstring * jsstring) :=
  execFrom (skipn lastIndex content) lastIndex.

(** [/^[①-⑩\d]/.test(inner)] *)
Definition startsWithEnumerator (inner : jsstring) : bool :=
  match inner with
  | c :: _ => ((0x2460 <=? c) && (c <=? 0x2469)) || ((48 <=? c) && (c <=? 57))
  | [] => false
  end.

Definition JOUKEN : jsstring := Eval vm_compute in js "条件".
Definition SHUTSURYOKU : jsstring := Eval vm_compute in js "出力形式".
Definition NYUURYOKU : jsstring := Eval vm_compute in js "入力".
Definition REI_FW : jsstring := Eval vm_compute in js "例：".
Definition REI_ASCII : jsstring := Eval vm_compute in js "例:".

(** The two [continue] tests of the loop. *)
Definition excluded (inner : jsstring) : bool :=
  startsWithEnumerator inner
  || bool_decide (inner = JOUKEN) || bool_decide (inner = SHUTSURYOKU).

(** [.replace(/^[-\-・※【】]/, "")] *)
Definition stripLeadingMarker (s : jsstring) : jsstring :=
  match s with
  | c :: s' =>
      if (c =? HYPHEN) || (c =? MIDDOT) || (c =? REFMARK) || (c =? LLENT) || (c =? RLENT)
      then s' else s
  | [] => []
  end.

(** [.replace(/[：:]$/, "")] *)
Definition stripTrailingColon (s : jsstring) : jsstring :=
  match rev s with
  | c :: r => if (c =? FWCOLON) || (c =? COLON) then rev r else s
  | [] => s
  end.

(** [.replace(/^例[：:]/, "")] *)
Definition stripExampleMarker (s : jsstring) : jsstring :=
  match s with
  | a :: b :: s' =>
      if (a =? REI) && ((b =? FWCOLON) || (b =? COLON)) then s' else s
  | _ => s
  end.

Definition beforeBracket (content : jsstring) (index : nat) : jsstring :=
  let lineStart := Z.to_nat (lastIndexOf content LF index + 1) in
  trim (stripTrailingColon (stripLeadingMarker
          (trim (substring content lineStart index)))).

(** The body of the loop after the two [continue] tests: the field pushed
    for a match at [index] when [idn] fields were pushed before. *)
Definition makeField (content : jsstring) (index : nat) (orig inner : jsstring)
    (idn : nat) : FormField :=
  let label := orElse (beforeBracket content index)
                 (js "入力 " ++ numberToString (idn + 1)) in
  let '(placeholder, hint) :=
    if startsWith inner REI_FW || startsWith inner REI_ASCII then
      let example := stripExampleMarker inner in
      (example, js "例：" ++ example)
    else if bool_decide (inner = NYUURYOKU) then
      (js "ここに入力してください", js "自由に入力してください")
    else if includes inner SLASH then
      (inner, inner ++ js " から選んでください")
    else
      (inner, inner ++ js " を入力してください") in
  mkField (js "field_" ++ numberToString idn) label placeholder hint orig.

(** The [while ((match = regex.exec(content)) !== null)] loop.  The state is
    the pattern's [lastIndex], the counter [id] and the array [fields]; one
    unit of [fuel] is one evaluation of the loop condition, and [None] means
    that the fuel ran out before [exec] returned [null]. *)
Fixpoint extractLoop (fuel : nat) (content : jsstring) (lastIndex idn : nat)
    (fields : list FormField) : option (list FormField) :=
  match fuel with
  | O => None
  | S fuel' =>
      match regexExec content lastIndex with
      | None => Some fields
      | Some (index, orig, inner) =>
          let lastIndex' := (index + length orig)%nat in
          if excluded inner then extractLoop fuel' content lastIndex' idn fields
          else extractLoop fuel' content lastIndex' (S idn)
                 (fields ++ [makeField content index orig inner idn])
      end
  end.

(** [extractFields(content)], run with as many evaluations of the loop
    condition as the content has code units, and one more. *)
Definition extractFields (content : jsstring) : option (list FormField) :=
  extractLoop (S (length content)) content 0 0 [].

(* ===================================================================== *)
(** ** buildPrompt *)
(* ===================================================================== *)

(** The first occurrence of [pat] in [s]: the text before it and the text
    after it ([StringIndexOf]; the empty pattern occurs at index 0). *)
Fixpoint splitFirst (pat s : jsstring) : option (jsstring * jsstring) :=
  if startsWith s pat then Some ([], skipn (length pat) s)
  else match s with
       | [] => None
       | c :: s' =>
           match splitFirst pat s' with
           | Some (before, after) => Some (c :: before, after)
           | None => None
           end
       end.

(** [GetSubstitution] of ECMAScript for a string pattern, which has no
    captures: "$$" is a dollar, "$&" the matched text, "$`" the text before
    the match, "$'" the text after it; a dollar before anything else (a digit
    or "<" included, for want of captures) stands for itself. *)
Fixpoint getSubstitution (matched before after template : jsstring) : jsstring :=
  match template with
  | [] => []
  | c :: t =>
      if c =? DOLLAR then
        match t with
        | d :: t' =>
            if d =? DOLLAR then DOLLAR :: getSubstitution matched before after t'
            else if d =? AMP then matched ++ getSubstitution matched before after t'
            else if d =? BACKTICK then before ++ getSubstitution matched before after t'
            else if d =? QUOTE then after ++ getSubstitution matched before after t'
            else c :: getSubstitution matched before after t
        | [] => [c]
        end
      else c :: getSubstitution matched before after t
  end.

(** [s.replace(pat, repl)] with a string pattern and a string replacement:
    only the first occurrence is replaced, and the replacement is a
    template. *)
Definition replace (s pat repl : jsstring) : jsstring :=
  match splitFirst pat s with
  | None => s
  | Some (before, after) => before ++ getSubstitution pat before after repl ++ after
  end.

(** [values[field.id] || field.original]; a key that is absent reads as
    [undefined].  (Keys that JavaScript objects inherit, such as
    "constructor", are not modelled: the ids that [extractFields] makes all
    start with "field_".) *)
Definition valueFor (values : gmap jsstring jsstring) (field : FormField) : jsstring :=
  orElse (default [] (values !! id field)) (original field).

(** One turn of the [for (const field of fields)] loop. *)
Definition buildStep (values : gmap jsstring jsstring) (result : jsstring)
    (field : FormField) : jsstring :=
  replace result (original field) (valueFor values field).

Definition buildPrompt (content : jsstring) (fields : list FormField)
    (values : gmap jsstring jsstring) : jsstring :=
  fold_left (buildStep values) fields content.

(* ===================================================================== *)
(** ** parsePromptSections *)
(* ===================================================================== *)

Record PromptSection := mkSection {
  title : jsstring;
  content : jsstring;
  icon : jsstring
}.

Definition sectionIconMap : gmap jsstring jsstring :=
  {[ js "あなたの役割" := js "🤖"; js "条件" := js "📋"; js "出力形式" := js "📤" ]}.

(** The greedy run [[^】]*] at the head of [s], and what follows it. *)
Fixpoint spanTitle (s : jsstring) : jsstring * jsstring :=
  match s with
  | c :: s' =>
      if c =? RLENT then ([], s)
      else let (run, rest) := spanTitle s' in (c :: run, rest)
  | [] => ([], [])
  end.

(** One attempt of [/【([^】]+)】/] at the head of [s]: the title and the text
    after the closing bracket. *)
Definition headingAt (s : jsstring) : option (jsstring * jsstring) :=
  match s with
  | o :: s1 =>
      if o =? LLENT then
        match spanTitle s1 with
        | (c0 :: run, c :: rest) => if c =? RLENT then Some (c0 :: run, rest) else None
        | _ => None
        end
      else None
  | [] => None
  end.

(** [content.split(/(?=【[^】]+】)/)].  The separator is a lookahead and has
    no width: [split] cuts at every index [q] with [0 < q < length] where the
    pattern matches (an empty match at the start of the current chunk,
    index [0] among them, cuts nothing), and no text is removed.  The chunks
    of [c :: s'] are those of [s'], with [c] put in front of the first one,
    or in a chunk of its own when a heading starts at [s']. *)
Fixpoint splitAtHeadings (s : jsstring) : list jsstring :=
  match s with
  | [] => [[]]
  | c :: s' =>
      match headingAt s', splitAtHeadings s' with
      | Some _, chunks => [c] :: chunks
      | None, p :: ps => (c :: p) :: ps
      | None, [] => [[c]]
      end
  end.

(** [part.match(re)], where [re] is [^【([^】]+)】\n?] followed by a second
    group that takes all the remaining text: groups 1 and 2. *)
Definition markerMatch (part : jsstring) : option (jsstring * jsstring) :=
  match headingAt part with
  | Some (t, rest) =>
      Some (t, match rest with
               | c :: r => if c =? LF then r else rest
               | [] => []
               end)
  | None => None
  end.

(** One turn of the [for (const part of parts)] loop.  (As for [values],
    keys that the icon table inherits are not modelled.) *)
Definition sectionStep (sections : list PromptSection) (part : jsstring)
  : list PromptSection :=
  match markerMatch part with
  | Some (t, rest) =>
      let body := trim rest in
      if truthy body then
        sections ++ [mkSection t body
                       (orElse (default [] (sectionIconMap !! t)) (js "📄"))]
      else sections
  | None =>
      if truthy (trim part) then
        sections ++ [mkSection (js "あなたの役割") (trim part) (js "🤖")]
      else sections
  end.

Definition parsePromptSections (content : jsstring) : list PromptSection :=
  fold_left sectionStep (splitAtHeadings content) [].

(* ===================================================================== *)
(** ** The component App *)
(* ===================================================================== *)

Module Prompt.
(** Modelled from the spec: the type [Prompt] is declared in
    [./data/prompts], which is not among the sources.  Its members are the
    ones the component reads; [id] is a whole number, not negative. *)
Record t := mk {
  id : nat;
  title : jsstring;
  category : jsstring;
  description : jsstring;
  content : jsstring
}.
End Prompt.

(** [s.includes(q)] for any search string. *)
Definition includesString (s q : jsstring) : bool :=
  match splitFirst q s with
  | Some _ => true
  | None => false
  end.

Definition SUBETE : jsstring := Eval vm_compute in js "すべて".

(** The callback of [prompts.filter] in [filteredPrompts]. *)
Definition matchesFilter (selectedCategory searchQuery : jsstring) (p : Prompt.t) : bool :=
  let matchCategory :=
    bool_decide (selectedCategory = SUBETE)
    || bool_decide (Prompt.category p = selectedCategory) in
  let matchSearch :=
    bool_decide (searchQuery = [])
    || includesString (Prompt.title p) searchQuery
    || includesString (Prompt.category p) searchQuery
    || includesString (Prompt.content p) searchQuery in
  matchCategory && matchSearch.

(** [filteredPrompts]; the catalogue [prompts] of [./data/prompts] is a
    parameter. *)
Definition filteredPrompts (prompts : list Prompt.t)
    (selectedCategory searchQuery : jsstring) : list Prompt.t :=
  List.filter (matchesFilter selectedCategory searchQuery) prompts.

(** The state of the component: its five [useState] cells. *)
Record AppState := mkState {
  selectedCategory : jsstring;
  searchQuery : jsstring;
  selectedPrompt : option Prompt.t;
  formValues : gmap jsstring jsstring;
  copied : bool
}.

Definition initialState : AppState := mkState SUBETE [] None ∅ false.

Definition handleSelectPrompt (prompt : Prompt.t) (st : AppState) : AppState :=
  mkState (selectedCategory st) (searchQuery st) (Some prompt) ∅ false.

Definition handleCloseModal (st : AppState) : AppState :=
  mkState (selectedCategory st) (searchQuery st) None ∅ false.

(** The [onChange] of the text area of the field [fieldId]:
    [setFormValues((prev) => ({ ...prev, [field.id]: e.target.value }))]. *)
Definition handleFieldChange (fieldId value : jsstring) (st : AppState) : AppState :=
  mkState (selectedCategory st) (searchQuery st) (selectedPrompt st)
    (<[ fieldId := value ]> (formValues st)) (copied st).

(** The [value] of the text area of a field: [formValues[field.id] || ""]. *)
Definition textareaValue (st : AppState) (field : FormField) : jsstring :=
  orElse (default [] (formValues st !! id field)) [].

(** The three memoised values.  They are functions of the state; [None] is
    the [None] of [extractFields]. *)
Definition currentFields (st : AppState) : option (list FormField) :=
  match selectedPrompt st with
  | None => Some []
  | Some p => extractFields (Prompt.content p)
  end.

Definition completedPrompt (st : AppState) : option jsstring :=
  match selectedPrompt st with
  | None => Some []
  | Some p =>
      match currentFields st with
      | Some fields => Some (buildPrompt (Prompt.content p) fields (formValues st))
      | None => None
      end
  end.

Definition completedSections (st : AppState) : option (list PromptSection) :=
  match completedPrompt st with
  | Some text => Some (if truthy text then parsePromptSections text else [])
  | None => None
  end.

(** [s.padStart(targetLength, fill)] *)
Definition padStart (s : jsstring) (targetLength : nat) (fill : jsstring) : jsstring :=
  if (targetLength <=? length s)%nat then s
  else match fill with
       | [] => s
       | _ :: _ =>
           let fillLen := (targetLength - length s)%nat in
           firstn fillLen (concat (repeat fill fillLen)) ++ s
       end.

(** The number shown on a card: [String(prompt.id).padStart(3, "0")]. *)
Definition cardNumber (p : Prompt.t) : jsstring :=
  padStart (numberToString (Prompt.id p)) 3 (js "0").

(* ===================================================================== *)
(** ** What the specification speaks of *)
(* ===================================================================== *)

(** A decimal digit. *)
Definition isDigit (c : Z) : Prop := 48 <= c <= 57.

(** What the pattern accepts, said without the matcher: an opener, one or
    more units none of which is "]", "{" or "}", and a closer.  [m1] is the
    inner text. *)
Definition tokenOf (m0 m1 : jsstring) : Prop :=
  exists o c,
    m0 = o :: m1 ++ [c] /\ isOpener o = true /\ m1 <> [] /\
    Forall (fun x => isInner x = true) m1 /\ isCloser c = true.

Definition isToken (t : jsstring) : Prop := exists m1, tokenOf t m1.

(** A token starts at the head of [s]. *)
Definition tokenAtHead (s : jsstring) : Prop :=
  exists t rest, s = t ++ rest /\ isToken t.

Abbreviation rmatch := (nat * jsstring * jsstring)%type.

(** The matches that the loop goes through, without what it does with
    them. *)
Fixpoint matchLoop (fuel : nat) (content : jsstring) (lastIndex : nat)
  : option (list rmatch) :=
  match fuel with
  | O => None
  | S fuel' =>
      match regexExec content lastIndex with
      | None => Some []
      | Some (index, orig, inner) =>
          option_map (cons (index, orig, inner))
            (matchLoop fuel' content (index + length orig)%nat)
      end
  end.

(** What the loop pushes for a list of matches, the counter being [idn]. *)
Fixpoint fieldsOf (content : jsstring) (idn : nat) (ms : list rmatch)
  : list FormField :=
  match ms with
  | [] => []
  | (index, orig, inner) :: ms' =>
      if excluded inner then fieldsOf content idn ms'
      else makeField content index orig inner idn :: fieldsOf content (S idn) ms'
  end.

(** The leftmost, non-overlapping tokens of a text [s] that starts at index
    [off] of the content: each with its index, its text and its inner
    text. *)
Inductive Scan : nat -> jsstring -> list rmatch -> Prop :=
| Scan_done off s :
    (forall k, ~ tokenAtHead (skipn k s)) -> Scan off s []
| Scan_token off s pre m0 m1 rest ms :
    s = pre ++ m0 ++ rest ->
    tokenOf m0 m1 ->
    (forall k, (k < length pre)%nat -> ~ tokenAtHead (skipn k s)) ->
    Scan (off + length pre + length m0) rest ms ->
    Scan off s ((off + length pre, m0, m1)%nat :: ms).

(** Replacement of the first occurrence by a text taken literally: the
    replacement as the specification words it. *)
Definition replaceLiteral (s pat v : jsstring) : jsstring :=
  match splitFirst pat s with
  | None => s
  | Some (before, after) => before ++ v ++ after
  end.

(** The composer as the specification words it: for each field in order,
    the first remaining occurrence of its token is replaced by the value
    supplied when there is a non-empty one, and by the token itself
    otherwise. *)
Definition composeSpec (content : jsstring) (fields : list FormField)
    (values : gmap jsstring jsstring) : jsstring :=
  fold_left (fun result field =>
               replaceLiteral result (original field) (valueFor values field))
    fields content.

Arguments headingAt : simpl never.

(** The indices of the content where a list of chunks that starts at index
    [off] is cut. *)
Fixpoint boundaries (off : nat) (chunks : list jsstring) : list nat :=
  match chunks with
  | p :: ((_ :: _) as ps) => (off + length p)%nat :: boundaries (off + length p) ps
  | _ => []
  end.

(** A text made of gaps and tokens in turn, then a tail. *)
Fixpoint interleave (gaps tokens : list jsstring) (tail : jsstring) : jsstring :=
  match gaps, tokens with
  | g :: gs, t :: ts => g ++ t ++ interleave gs ts tail
  | _, _ => tail
  end.

(** [q] occurs in [s]. *)
Definition occursIn (q s : jsstring) : Prop := exists a b, s = a ++ q ++ b.


(** A section as the templates write it: the heading on a line of its own,
    then the text. *)
Definition renderSection (sec : jsstring * jsstring) : jsstring :=
  LLENT :: sec.1 ++ RLENT :: LF :: sec.2.

(** A heading and a text that [renderSection] can write without making
    another heading: the title is not empty and has no lenticular bracket in
    it, and the text has no opening one. *)
Definition plainSection (sec : jsstring * jsstring) : bool :=
  truthy sec.1 && negb (includes sec.1 RLENT) && negb (includes sec.1 LLENT)
  && negb (includes sec.2 LLENT).

(** What [parsePromptSections] shows of a headed section: nothing when its
    text is blank. *)
Definition shownOf (t body : jsstring) : list (jsstring * jsstring) :=
  if truthy (trim body) then [(t, trim body)] else [].

(** The title and the text that a section shows. *)
Definition shown (s : PromptSection) : jsstring * jsstring := (title s, content s).

(** A text that does not start and does not end with white space. *)
Definition trimmed (s : jsstring) : Prop := trim s = s.

(* ===================================================================== *)
(** ** The token pattern *)
(* ===================================================================== *)

Lemma closer_not_inner c : isCloser c = true -> isInner c = false.
Proof.
  unfold isCloser, isInner, RBRACK, LBRACE, RBRACE. intros H.
  apply orb_true_iff in H as [H|H]; apply Z.eqb_eq in H; subst; reflexivity.
Qed.

Lemma spanInner_app s run rest :
  spanInner s = (run, rest) ->
  s = run ++ rest /\ Forall (fun x => isInner x = true) run /\
  match rest with [] => True | c :: _ => isInner c = false end.
Proof.
  revert run rest. induction s as [|c s IH]; intros run rest; simpl.
  - intros [= <- <-]. repeat split; constructor.
  - destruct (isInner c) eqn:Hc.
    + destruct (spanInner s) as [run' rest'] eqn:Hs. intros [= <- <-].
      destruct (IH _ _ eq_refl) as (-> & Hall & Hrest).
      repeat split; [constructor; assumption | assumption].
    + intros [= <- <-]. repeat split; [constructor | assumption].
Qed.

Lemma spanInner_run run c rest :
  Forall (fun x => isInner x = true) run -> isInner c = false ->
  spanInner (run ++ c :: rest) = (run, c :: rest).
Proof.
  intros Hall Hc. induction Hall as [|x run Hx _ IH]; simpl.
  - rewrite Hc. reflexivity.
  - rewrite Hx, IH. reflexivity.
Qed.

Lemma matchAt_sound s m0 m1 :
  matchAt s = Some (m0, m1) -> tokenOf m0 m1 /\ exists rest, s = m0 ++ rest.
Proof.
  unfold matchAt. destruct s as [|o s1]; [discriminate|].
  destruct (isOpener o) eqn:Ho; [|discriminate].
  destruct (spanInner s1) as [run rest] eqn:Hs.
  destruct run as [|c0 run]; [discriminate|].
  destruct rest as [|c rest]; [discriminate|].
  destruct (isCloser c) eqn:Hc; [|discriminate].
  intros [= <- <-].
  destruct (spanInner_app _ _ _ Hs) as (-> & Hall & _).
  split.
  - exists o, c. repeat split; try assumption. discriminate.
  - exists rest. simpl. rewrite <- !app_assoc. reflexivity.
Qed.

Lemma matchAt_complete t m1 rest :
  tokenOf t m1 -> matchAt (t ++ rest) = Some (t, m1).
Proof.
  intros (o & c & -> & Ho & Hne & Hall & Hc). unfold matchAt. simpl. rewrite Ho.
  rewrite <- app_assoc. simpl.
  rewrite (spanInner_run m1 c rest Hall (closer_not_inner c Hc)).
  destruct m1 as [|c0 run]; [contradiction|]. rewrite Hc. reflexivity.
Qed.

Lemma matchAt_None_iff s : matchAt s = None <-> ~ tokenAtHead s.
Proof.
  split.
  - intros Hn (t & rest & -> & m1 & Ht).
    rewrite (matchAt_complete _ _ rest Ht) in Hn. discriminate.
  - intros Hn. destruct (matchAt s) as [[m0 m1]|] eqn:Hm; [|reflexivity].
    destruct (matchAt_sound _ _ _ Hm) as (Ht & rest & ->).
    exfalso. apply Hn. exists m0, rest. split; [reflexivity | exists m1; exact Ht].
Qed.

Lemma tokenOf_length m0 m1 : tokenOf m0 m1 -> (3 <= length m0)%nat.
Proof.
  intros (o & c & -> & _ & Hne & _). destruct m1; [contradiction|].
  simpl. rewrite length_app. simpl. lia.
Qed.

(** [regex.exec]: the match it returns is the leftmost token at or after the
    start of the search. *)
Lemma execFrom_Some s idx i m0 m1 :
  execFrom s idx = Some (i, m0, m1) ->
  exists pre rest,
    s = pre ++ m0 ++ rest /\ i = (idx + length pre)%nat /\ tokenOf m0 m1 /\
    forall k, (k < length pre)%nat -> ~ tokenAtHead (skipn k s).
Proof.
  revert idx. induction s as [|c s IH]; intros idx; simpl.
  - discriminate.
  - destruct (matchAt (c :: s)) as [[a b]|] eqn:Hm.
    + intros [= <- <- <-].
      destruct (matchAt_sound _ _ _ Hm) as (Ht & rest & Hs).
      exists [], rest. simpl. repeat split; [exact Hs | lia | exact Ht | intros; lia].
    + intros He. destruct (IH _ He) as (pre & rest & -> & -> & Ht & Hleft).
      exists (c :: pre), rest. simpl. repeat split; [lia | exact Ht |].
      intros [|k] Hk; simpl.
      * apply matchAt_None_iff. exact Hm.
      * apply Hleft. lia.
Qed.

Lemma execFrom_None s idx :
  execFrom s idx = None -> forall k, ~ tokenAtHead (skipn k s).
Proof.
  revert idx. induction s as [|c s IH]; intros idx; simpl.
  - intros _ k. rewrite skipn_nil. apply matchAt_None_iff. reflexivity.
  - destruct (matchAt (c :: s)) as [[a b]|] eqn:Hm; [discriminate|].
    intros He [|k]; simpl.
    + apply matchAt_None_iff. exact Hm.
    + exact (IH _ He k).
Qed.

(* ===================================================================== *)
(** ** The extraction loop *)
(* ===================================================================== *)

(** *** The tokens of a text *)

Lemma Scan_tokens off s ms :
  Scan off s ms ->
  Forall (fun m : rmatch => tokenOf m.1.2 m.2 /\ incl m.1.2 s) ms.
Proof.
  induction 1 as [|off s pre m0 m1 rest ms -> Ht _ _ IH]; constructor.
  - split; [exact Ht|]. simpl. intros x Hx. apply in_or_app. right.
    apply in_or_app. left. exact Hx.
  - eapply Forall_impl; [exact IH|]. simpl. intros m [Hm Hincl]. split; [exact Hm|].
    intros x Hx. apply in_or_app. right. apply in_or_app. right. exact (Hincl x Hx).
Qed.

(** A text without a token anywhere has no match. *)
Lemma Scan_no_token off s ms :
  (forall k, ~ tokenAtHead (skipn k s)) -> Scan off s ms -> ms = [].
Proof.
  intros Hno Hscan. destruct Hscan as [|off s pre m0 m1 rest ms -> Ht _ _]; [reflexivity|].
  exfalso. apply (Hno (length pre)). rewrite drop_app_length.
  exists m0, rest. split; [reflexivity | exists m1; exact Ht].
Qed.

Lemma app_same_length {A} (a b c d : list A) :
  a ++ b = c ++ d -> length a = length c -> a = c /\ b = d.
Proof.
  revert c. induction a as [|x a IH]; intros [|y c]; simpl; try discriminate.
  - intros H _. split; [reflexivity | exact H].
  - intros [= <- H] [= Hlen]. destruct (IH _ H Hlen) as [-> ->]. split; reflexivity.
Qed.

(** A text has one list of leftmost, non-overlapping tokens. *)
Lemma Scan_unique off s ms1 ms2 : Scan off s ms1 -> Scan off s ms2 -> ms1 = ms2.
Proof.
  intros H1. revert ms2.
  induction H1 as [off s Hno|off s pre m0 m1 rest ms Hs Ht Hleft Hrest IH]; intros ms2 H2.
  - symmetry. exact (Scan_no_token _ _ _ Hno H2).
  - destruct H2 as [off s Hno|off s pre' m0' m1' rest' ms' Hs' Ht' Hleft' Hrest'].
    + exfalso. apply (Hno (length pre)). rewrite Hs, drop_app_length.
      exists m0, rest. split; [reflexivity | exists m1; exact Ht].
    + assert (Hlen : length pre = length pre').
      { destruct (Nat.lt_trichotomy (length pre) (length pre')) as [Hlt|[Heq|Hlt]];
          [exfalso | exact Heq | exfalso].
        - apply (Hleft' _ Hlt). rewrite Hs, drop_app_length.
          exists m0, rest. split; [reflexivity | exists m1; exact Ht].
        - apply (Hleft _ Hlt). rewrite Hs', drop_app_length.
          exists m0', rest'. split; [reflexivity | exists m1'; exact Ht']. }
      rewrite Hs in Hs'. destruct (app_same_length _ _ _ _ Hs' Hlen) as [<- Htail].
      pose proof (matchAt_complete _ _ rest Ht) as Hm.
      rewrite Htail, (matchAt_complete _ _ rest' Ht') in Hm.
      injection Hm as <- <-. apply app_inv_head in Htail. subst rest'.
      f_equal. apply IH. exact Hrest'.
Qed.

(** *** The loop over a content *)

Section ExtractionLoop.

Variable content : jsstring.

Lemma extractLoop_matchLoop fuel li idn acc :
  extractLoop fuel content li idn acc =
  option_map (fun ms => acc ++ fieldsOf content idn ms) (matchLoop fuel content li).
Proof.
  revert li idn acc. induction fuel as [|fuel IH]; intros li idn acc; simpl.
  - reflexivity.
  - destruct (regexExec content li) as [[[index orig] inner]|]; simpl.
    + destruct (excluded inner) eqn:Hex; rewrite IH;
        destruct (matchLoop fuel content (index + length orig)%nat); simpl;
        rewrite ?Hex, <- ?app_assoc; reflexivity.
    + rewrite app_nil_r. reflexivity.
Qed.

Lemma regexExec_Some li i m0 m1 :
  regexExec content li = Some (i, m0, m1) ->
  exists pre rest,
    skipn li content = pre ++ m0 ++ rest /\ i = (li + length pre)%nat /\
    tokenOf m0 m1 /\
    (forall k, (k < length pre)%nat -> ~ tokenAtHead (skipn k (skipn li content))) /\
    skipn (i + length m0) content = rest.
Proof.
  unfold regexExec. intros He.
  destruct (execFrom_Some _ _ _ _ _ He) as (pre & rest & Hs & -> & Ht & Hleft).
  exists pre, rest. repeat split; try assumption.
  replace (li + length pre + length m0)%nat with ((length pre + length m0) + li)%nat by lia.
  rewrite <- skipn_skipn, Hs, app_assoc, <- length_app.
  apply drop_app_length.
Qed.

(** Every match moves [lastIndex] forward, so the loop ends before the fuel
    does when there is more fuel than text left; its matches are the
    leftmost, non-overlapping tokens of the text left. *)
Lemma matchLoop_scan fuel li :
  (length (skipn li content) < fuel)%nat ->
  exists ms, matchLoop fuel content li = Some ms /\ Scan li (skipn li content) ms.
Proof.
  revert li. induction fuel as [|fuel IH]; intros li Hlen; [lia|]. simpl.
  destruct (regexExec content li) as [[[i m0] m1]|] eqn:He.
  - destruct (regexExec_Some _ _ _ _ He) as (pre & rest & Hs & -> & Ht & Hleft & Hrest).
    destruct (IH (li + length pre + length m0)%nat) as (ms & Hms & Hscan).
    { rewrite Hrest. rewrite Hs, !length_app in Hlen.
      pose proof (tokenOf_length _ _ Ht). lia. }
    rewrite Hms. simpl. eexists. split; [reflexivity|].
    rewrite Hrest in Hscan. eapply Scan_token; eassumption.
  - exists []. split; [reflexivity|]. apply Scan_done.
    exact (execFrom_None _ _ He).
Qed.

(** The loop returns, and what it returns are the fields of the leftmost,
    non-overlapping tokens of the content. *)
Lemma extractFields_scan :
  exists ms, Scan 0 content ms /\ extractFields content = Some (fieldsOf content 0 ms).
Proof.
  destruct (matchLoop_scan (S (length content)) 0) as (ms & Hms & Hscan).
  { rewrite drop_0. lia. }
  exists ms. split; [exact Hscan|].
  unfold extractFields. rewrite extractLoop_matchLoop, Hms. reflexivity.
Qed.

(** More fuel than the content has code units changes nothing. *)
Lemma extractLoop_fuel fuel :
  (length content < fuel)%nat ->
  extractLoop fuel content 0 0 [] = extractFields content.
Proof.
  intros Hlen.
  destruct (matchLoop_scan fuel 0) as (ms1 & H1 & Hs1); [rewrite drop_0; lia|].
  destruct (matchLoop_scan (S (length content)) 0) as (ms2 & H2 & Hs2); [rewrite drop_0; lia|].
  unfold extractFields. rewrite !extractLoop_matchLoop, H1, H2.
  rewrite (Scan_unique _ _ _ _ Hs1 Hs2). reflexivity.
Qed.

Lemma original_makeField i m0 m1 idn :
  original (makeField content i m0 m1 idn) = m0.
Proof. unfold makeField. repeat case_match; reflexivity. Qed.

Lemma fieldsOf_originals idn ms :
  List.map original (fieldsOf content idn ms) =
  List.map (fun m : rmatch => m.1.2) (List.filter (fun m : rmatch => negb (excluded m.2)) ms).
Proof.
  revert idn. induction ms as [|[[i m0] m1] ms IH]; intros idn; simpl; [reflexivity|].
  destruct (excluded m1); simpl; [apply IH|].
  rewrite original_makeField, IH. reflexivity.
Qed.

Lemma fieldsOf_Forall (Q : FormField -> Prop) ms :
  (forall i m0 m1 idn,
      In (i, m0, m1) ms -> excluded m1 = false -> Q (makeField content i m0 m1 idn)) ->
  forall idn, Forall Q (fieldsOf content idn ms).
Proof.
  induction ms as [|[[i m0] m1] ms IH]; intros HQ idn; simpl; [constructor|].
  assert (Htl : forall idn', Forall Q (fieldsOf content idn' ms)).
  { apply IH. intros. apply HQ; [right|]; assumption. }
  destruct (excluded m1) eqn:Hex; [apply Htl|].
  constructor; [|apply Htl]. apply HQ; [left; reflexivity | exact Hex].
Qed.

End ExtractionLoop.

(* ===================================================================== *)
(** ** Replacement *)
(* ===================================================================== *)

Lemma startsWith_app s p : startsWith s p = true -> s = p ++ skipn (length p) s.
Proof.
  revert s. induction p as [|a p IH]; intros s; simpl; [reflexivity|].
  destruct s as [|b s]; [discriminate|]. intros H.
  apply andb_true_iff in H as [Hab Hp]. apply Z.eqb_eq in Hab. subst b.
  simpl. f_equal. apply IH. exact Hp.
Qed.

Lemma startsWith_prefix p r : startsWith (p ++ r) p = true.
Proof. induction p as [|a p IH]; simpl; [reflexivity|]. rewrite Z.eqb_refl. exact IH. Qed.

(** [splitFirst] finds the first occurrence. *)
Lemma splitFirst_Some pat s before after :
  splitFirst pat s = Some (before, after) ->
  s = before ++ pat ++ after /\
  forall k, (k < length before)%nat -> startsWith (skipn k s) pat = false.
Proof.
  revert before. induction s as [|c s IH]; intros before; simpl.
  - destruct (startsWith [] pat) eqn:Hp; [|discriminate].
    intros [= <- <-]. split; [|simpl; intros; lia].
    apply startsWith_app in Hp. exact Hp.
  - destruct (startsWith (c :: s) pat) eqn:Hp.
    + intros [= <- <-]. split; [|simpl; intros; lia].
      apply startsWith_app in Hp. exact Hp.
    + destruct (splitFirst pat s) as [[b a]|]; [|discriminate].
      intros [= <- <-]. destruct (IH _ eq_refl) as [-> Hfirst].
      split; [reflexivity|]. intros [|k] Hk; simpl; [exact Hp|].
      apply Hfirst. simpl in Hk. lia.
Qed.

Lemma splitFirst_None pat s :
  splitFirst pat s = None -> forall k, startsWith (skipn k s) pat = false.
Proof.
  induction s as [|c s IH]; simpl.
  - destruct (startsWith [] pat) eqn:Hp; [discriminate|].
    intros _ k. rewrite skipn_nil. exact Hp.
  - destruct (startsWith (c :: s) pat) eqn:Hp; [discriminate|].
    destruct (splitFirst pat s) as [[b a]|]; [discriminate|].
    intros _ [|k]; simpl; [exact Hp | apply IH; reflexivity].
Qed.

Lemma getSubstitution_plain matched before after template :
  ~ In DOLLAR template -> getSubstitution matched before after template = template.
Proof.
  induction template as [|c t IH]; intros Hno; simpl; [reflexivity|].
  destruct (c =? DOLLAR) eqn:Hc.
  - apply Z.eqb_eq in Hc. exfalso. apply Hno. left. exact Hc.
  - f_equal. apply IH. intros Hin. apply Hno. right. exact Hin.
Qed.

Lemma replace_plain s pat repl :
  ~ In DOLLAR repl -> replace s pat repl = replaceLiteral s pat repl.
Proof.
  intros Hno. unfold replace, replaceLiteral.
  destruct (splitFirst pat s) as [[b a]|]; [|reflexivity].
  rewrite getSubstitution_plain by exact Hno. reflexivity.
Qed.

Lemma replaceLiteral_self s pat : replaceLiteral s pat pat = s.
Proof.
  unfold replaceLiteral. destruct (splitFirst pat s) as [[b a]|] eqn:Hs; [|reflexivity].
  apply splitFirst_Some in Hs as [-> _]. reflexivity.
Qed.

(** Where no replacement text holds a dollar, the code composes as the
    specification says. *)
Lemma buildPrompt_composeSpec content fields values :
  Forall (fun f => ~ In DOLLAR (valueFor values f)) fields ->
  buildPrompt content fields values = composeSpec content fields values.
Proof.
  unfold buildPrompt, composeSpec. intros Hall. revert content.
  induction Hall as [|f fields Hf _ IH]; intros content; simpl; [reflexivity|].
  unfold buildStep at 2. rewrite (replace_plain _ _ _ Hf). apply IH.
Qed.

Lemma valueFor_empty f : valueFor ∅ f = original f.
Proof.
  unfold valueFor. rewrite lookup_empty. reflexivity.
Qed.

(** With no value at all, tokens without a dollar are put back as they
    are. *)
Lemma buildPrompt_empty_plain content fields :
  Forall (fun f => ~ In DOLLAR (original f)) fields ->
  buildPrompt content fields ∅ = content.
Proof.
  intros Hall. rewrite buildPrompt_composeSpec.
  - unfold composeSpec. revert content.
    induction fields as [|f fields IH]; intros content; simpl; [reflexivity|].
    rewrite (valueFor_empty f), replaceLiteral_self. apply IH.
    inversion Hall; assumption.
  - eapply Forall_impl; [exact Hall|]. intros f Hf. rewrite valueFor_empty. exact Hf.
Qed.

(** A template body without a dollar is composed to itself when no value
    is given. *)
Lemma buildPrompt_identity_without_dollar body :
  ~ In DOLLAR body ->
  exists fields, extractFields body = Some fields /\ buildPrompt body fields ∅ = body.
Proof.
  intros Hno. destruct (extractFields_scan body) as (ms & Hscan & Hfs).
  eexists. split; [exact Hfs|]. apply buildPrompt_empty_plain.
  apply fieldsOf_Forall. intros i m0 m1 idn Hin _.
  rewrite original_makeField. intros Hd. apply Hno.
  pose proof (Scan_tokens _ _ _ Hscan) as Hall.
  rewrite List.Forall_forall in Hall. destruct (Hall _ Hin) as [_ Hincl].
  exact (Hincl _ Hd).
Qed.

(* ===================================================================== *)
(** ** Section split *)
(* ===================================================================== *)

Lemma spanTitle_app s run rest :
  spanTitle s = (run, rest) ->
  s = run ++ rest /\ ~ In RLENT run /\
  match rest with [] => True | c :: _ => c = RLENT end.
Proof.
  revert run rest. induction s as [|c s IH]; intros run rest; simpl.
  - intros [= <- <-]. repeat split. intros [].
  - destruct (c =? RLENT) eqn:Hc.
    + intros [= <- <-]. apply Z.eqb_eq in Hc. repeat split; [intros [] | exact Hc].
    + destruct (spanTitle s) as [run' rest'] eqn:Hs. intros [= <- <-].
      destruct (IH _ _ eq_refl) as (-> & Hno & Hrest).
      apply Z.eqb_neq in Hc. repeat split; [|exact Hrest].
      intros [Hin|Hin]; [congruence | exact (Hno Hin)].
Qed.

Lemma spanTitle_run run rest :
  ~ In RLENT run -> spanTitle (run ++ RLENT :: rest) = (run, RLENT :: rest).
Proof.
  induction run as [|x run IH]; intros Hno; simpl.
  - reflexivity.
  - destruct (x =? RLENT) eqn:Hx.
    + apply Z.eqb_eq in Hx. exfalso. apply Hno. left. exact Hx.
    + rewrite IH; [reflexivity|]. intros Hin. apply Hno. right. exact Hin.
Qed.

(** A heading starts at the head of [s]: the opening bracket, a title of one
    unit or more without a closing bracket in it, the closing bracket. *)
Lemma headingAt_Some s t rest :
  headingAt s = Some (t, rest) <->
  s = LLENT :: t ++ RLENT :: rest /\ t <> [] /\ ~ In RLENT t.
Proof.
  unfold headingAt. split.
  - destruct s as [|o s1]; [discriminate|].
    destruct (o =? LLENT) eqn:Ho; [|discriminate]. apply Z.eqb_eq in Ho. subst o.
    destruct (spanTitle s1) as [run rest'] eqn:Hs.
    destruct run as [|c0 run]; [discriminate|].
    destruct rest' as [|c rest']; [discriminate|].
    destruct (c =? RLENT) eqn:Hc; [|discriminate]. apply Z.eqb_eq in Hc. subst c.
    intros [= <- <-]. destruct (spanTitle_app _ _ _ Hs) as (-> & Hno & _).
    repeat split; [discriminate | exact Hno].
  - intros (-> & Hne & Hno). rewrite Z.eqb_refl, (spanTitle_run t rest Hno).
    destruct t as [|c0 run]; [contradiction|]. rewrite Z.eqb_refl. reflexivity.
Qed.

Lemma splitAtHeadings_nonempty s : splitAtHeadings s <> [].
Proof.
  destruct s as [|c s]; simpl; [discriminate|].
  destruct (headingAt s); [discriminate|].
  destruct (splitAtHeadings s); discriminate.
Qed.

(** The split removes nothing. *)
Lemma splitAtHeadings_concat s : concat (splitAtHeadings s) = s.
Proof.
  induction s as [|c s IH]; simpl; [reflexivity|].
  destruct (headingAt s).
  - simpl. rewrite IH. reflexivity.
  - destruct (splitAtHeadings s) as [|p ps]; simpl in *; rewrite <- IH; reflexivity.
Qed.

Lemma boundaries_S off chunks :
  boundaries (S off) chunks = List.map S (boundaries off chunks).
Proof.
  revert off. induction chunks as [|p ps IH]; intros off; [reflexivity|].
  destruct ps as [|p' ps]; [reflexivity|].
  change (boundaries (S off) (p :: p' :: ps))
    with ((S off + length p)%nat :: boundaries (S off + length p) (p' :: ps)).
  change (boundaries off (p :: p' :: ps))
    with ((off + length p)%nat :: boundaries (off + length p) (p' :: ps)).
  simpl List.map. f_equal. apply (IH (off + length p)%nat).
Qed.

Lemma boundaries_cons c p ps :
  boundaries 0 ((c :: p) :: ps) = List.map S (boundaries 0 (p :: ps)).
Proof.
  destruct ps as [|p' ps]; [reflexivity|].
  change (boundaries 0 ((c :: p) :: p' :: ps))
    with ((S (length p)) :: boundaries (S (length p)) (p' :: ps)).
  change (boundaries 0 (p :: p' :: ps))
    with ((length p) :: boundaries (length p) (p' :: ps)).
  simpl List.map. f_equal. apply boundaries_S.
Qed.

(** The cuts are the indices, other than 0, where a heading starts. *)
Lemma splitAtHeadings_boundaries s q :
  In q (boundaries 0 (splitAtHeadings s)) <->
  (0 < q < length s)%nat /\ headingAt (skipn q s) <> None.
Proof.
  revert q. induction s as [|c s IH]; intros q.
  - simpl. split; [intros [] | intros [H _]; lia].
  - simpl splitAtHeadings.
    assert (Hstep : forall P : Prop,
               (P <-> headingAt s <> None) ->
               ((P /\ q = 1%nat) \/ In q (List.map S (boundaries 0 (splitAtHeadings s)))) <->
               (0 < q < length (c :: s))%nat /\ headingAt (skipn q (c :: s)) <> None).
    { intros P HP. rewrite in_map_iff. split.
      - intros [[Hp ->] | (q' & <- & Hin)].
        + simpl. apply HP in Hp. split; [|exact Hp].
          destruct s; [exfalso; apply Hp; reflexivity | simpl; lia].
        + apply IH in Hin as [Hq Hh]. simpl. split; [lia | exact Hh].
      - intros [Hq Hh]. destruct q as [|[|q']]; [lia | |].
        + left. split; [apply HP; exact Hh | reflexivity].
        + right. exists (S q'). split; [reflexivity|]. apply IH.
          simpl in Hq, Hh. split; [lia | exact Hh]. }
    destruct (headingAt s) as [h|] eqn:Hh.
    + pose proof (splitAtHeadings_nonempty s) as Hne.
      destruct (splitAtHeadings s) as [|p ps] eqn:Hsp; [contradiction|].
      change (boundaries 0 ([c] :: p :: ps)) with (1%nat :: boundaries 1 (p :: ps)).
      rewrite boundaries_S, <- (Hstep True) by (split; [discriminate | constructor]).
      simpl. split; [intros [<-|H]; [left; split; [constructor | reflexivity] | right; exact H]
                    | intros [[_ ->]|H]; [left; reflexivity | right; exact H]].
    + pose proof (splitAtHeadings_nonempty s) as Hne.
      destruct (splitAtHeadings s) as [|p ps] eqn:Hsp; [contradiction|].
      rewrite boundaries_cons, <- (Hstep False) by (split; [intros [] | intros H; apply H; reflexivity]).
      split; [intros H; right; exact H | intros [[[] _]|H]; exact H].
Qed.

Lemma splitAtHeadings_head c s :
  exists r ps, splitAtHeadings (c :: s) = (c :: r) :: ps.
Proof.
  simpl. destruct (headingAt s); [eauto|].
  destruct (splitAtHeadings s); eauto.
Qed.

(** Every chunk but the first starts with the opening bracket of a
    heading. *)
Lemma splitAtHeadings_tail s :
  Forall (fun p => exists r, p = LLENT :: r) (tl (splitAtHeadings s)).
Proof.
  induction s as [|c s IH]; simpl; [constructor|].
  destruct (headingAt s) as [[t rest]|] eqn:Hh.
  - simpl. apply headingAt_Some in Hh as (-> & _).
    destruct (splitAtHeadings_head LLENT (t ++ RLENT :: rest)) as (r & ps & Hsp).
    rewrite Hsp in IH |- *. constructor; [eauto | exact IH].
  - destruct (splitAtHeadings s) as [|p ps]; [constructor | exact IH].
Qed.

Lemma splitAtHeadings_length s : (length (splitAtHeadings s) <= S (length s))%nat.
Proof.
  induction s as [|c s IH]; simpl; [lia|].
  destruct (headingAt s); [simpl; lia|].
  destruct (splitAtHeadings s); simpl in *; lia.
Qed.

Lemma sectionStep_length sections part :
  (length (sectionStep sections part) <= S (length sections))%nat.
Proof.
  unfold sectionStep. repeat case_match; rewrite ?length_app; simpl; lia.
Qed.

Lemma fold_sectionStep_length chunks sections :
  (length (fold_left sectionStep chunks sections) <= length sections + length chunks)%nat.
Proof.
  revert sections. induction chunks as [|p chunks IH]; intros sections; simpl; [lia|].
  specialize (IH (sectionStep sections p)).
  pose proof (sectionStep_length sections p). lia.
Qed.

Lemma replace_absent s pat repl : splitFirst pat s = None -> replace s pat repl = s.
Proof. unfold replace. intros ->. reflexivity. Qed.

(* ===================================================================== *)
(** ** Properties of the specification *)
(* ===================================================================== *)

Lemma excluded_iff inner :
  excluded inner = true <->
  (exists c r, inner = c :: r /\ (0x2460 <= c <= 0x2469 \/ 48 <= c <= 57)) \/
  inner = js "条件" \/ inner = js "出力形式".
Proof.
  change (js "条件") with JOUKEN. change (js "出力形式") with SHUTSURYOKU.
  unfold excluded. rewrite !orb_true_iff, !bool_decide_eq_true.
  assert (Hnum : startsWithEnumerator inner = true <->
                 exists c r, inner = c :: r /\ (0x2460 <= c <= 0x2469 \/ 48 <= c <= 57)).
  { destruct inner as [|c r]; simpl.
    - split; [discriminate | intros (c & r & H & _); discriminate].
    - rewrite orb_true_iff, !andb_true_iff, !Z.leb_le. split.
      + intros H. exists c, r. split; [reflexivity | exact H].
      + intros (c' & r' & [= <- <-] & H). exact H. }
  rewrite Hnum. tauto.
Qed.

(** The fields of a content come from tokens that are not excluded. *)
Lemma extractFields_fields content :
  exists ms fields,
    Scan 0 content ms /\ extractFields content = Some fields /\
    List.map original fields =
      List.map (fun m : rmatch => m.1.2)
        (List.filter (fun m : rmatch => negb (excluded m.2)) ms) /\
    Forall (fun f => exists o inner c,
                original f = o :: inner ++ [c] /\ inner <> [] /\
                excluded inner = false) fields.
Proof.
  destruct (extractFields_scan content) as (ms & Hscan & Hfs).
  exists ms, (fieldsOf content 0 ms). repeat split; try assumption.
  - apply fieldsOf_originals.
  - apply fieldsOf_Forall. intros i m0 m1 idn Hin Hex.
    pose proof (Scan_tokens _ _ _ Hscan) as Hall.
    rewrite List.Forall_forall in Hall.
    destruct (Hall _ Hin) as [(o & c & Hm0 & _ & Hne & _) _]. simpl in Hm0, Hne.
    exists o, m1, c. rewrite original_makeField. repeat split; assumption.
Qed.

(** *** Scenarios of the specification *)

Example literal_circled_one : js "①" = [0x2460].
Proof. reflexivity. Qed.

Example literal_robot : js "🤖" = [0xD83E; 0xDD16].
Proof. reflexivity. Qed.

Example scenario_choice :
  extractFields (js "Agree? [はい/いいえ]") =
  Some [mkField (js "field_0") (js "Agree?") (js "はい/いいえ")
          (js "はい/いいえ から選んでください") (js "[はい/いいえ]")].
Proof. vm_compute. reflexivity. Qed.

Example scenario_generic_label :
  extractFields (js "- [入力]
{1行} ・[例:x]") =
  Some [mkField (js "field_0") (js "入力 1") (js "ここに入力してください")
          (js "自由に入力してください") (js "[入力]");
        mkField (js "field_1") (js "{1行} ・") (js "x") (js "例：x") (js "[例:x]")].
Proof. vm_compute. reflexivity. Qed.

Example scenario_same_token_twice :
  buildPrompt (js "a [x] b [x]")
    [mkField (js "field_0") [] [] [] (js "[x]");
     mkField (js "field_1") [] [] [] (js "[x]")]
    {[ js "field_1" := js "V" ]} = js "a V b [x]".
Proof. vm_compute. reflexivity. Qed.

Example scenario_section_split :
  parsePromptSections (js "【Role】
You are an assistant.
【条件】
Be concise.") =
  [mkSection (js "Role") (js "You are an assistant.") (js "📄");
   mkSection (js "条件") (js "Be concise.") (js "📋")].
Proof. vm_compute. reflexivity. Qed.

Example scenario_leading_free_text :
  parsePromptSections (js "Just some text
【条件】
Be concise.") =
  [mkSection (js "あなたの役割") (js "Just some text") (js "🤖");
   mkSection (js "条件") (js "Be concise.") (js "📋")].
Proof. vm_compute. reflexivity. Qed.

(** *** The claims *)

(** C1: composing the body "[$$]" with its own fields and no value does not
    give the body back: the token is put back through the replacement
    template of [replace], in which "$$" stands for one dollar, and the
    result is "[$]". *)
Theorem C1_identity_fails_on_dollar_token :
  exists fields,
    extractFields (js "[$$]") = Some fields /\
    buildPrompt (js "[$$]") fields ∅ = js "[$]" /\
    buildPrompt (js "[$$]") fields ∅ <> js "[$$]".
Proof.
  eexists. split; [vm_compute; reflexivity|].
  split; [vm_compute; reflexivity | vm_compute; discriminate].
Qed.

(** C2: for the body "Name: [name]" and the value "$&" for its field, the
    code does not put the value in the place of the token, as the
    specification's composer does: "$&" is read as the matched text and the
    token stays. *)
Theorem C2_value_not_substituted_literally :
  exists fields,
    extractFields (js "Name: [name]") = Some fields /\
    buildPrompt (js "Name: [name]") fields {[ js "field_0" := js "$&" ]}
      = js "Name: [name]" /\
    composeSpec (js "Name: [name]") fields {[ js "field_0" := js "$&" ]}
      = js "Name: $&".
Proof.
  eexists. split; [vm_compute; reflexivity|].
  split; vm_compute; reflexivity.
Qed.

(** C3, counterexample: the body "[]" yields no field at all. *)
Lemma C3_empty_brackets_counterexample : extractFields (js "[]") = Some [].
Proof. vm_compute. reflexivity. Qed.

(** C3, amended: the token pattern asks for one unit of inner text at least,
    so "[]" is not a token and yields no field; the token of every field has
    an inner text that is not empty. *)
Theorem C3_inner_text_never_empty :
  forall content,
    exists fields,
      extractFields content = Some fields /\
      Forall (fun f => original f <> js "[]" /\
                       exists o inner c, original f = o :: inner ++ [c] /\ inner <> [])
        fields.
Proof.
  intros content.
  destruct (extractFields_fields content) as (ms & fields & _ & Hfs & _ & Hall).
  exists fields. split; [exact Hfs|].
  eapply Forall_impl; [exact Hall|]. simpl.
  intros f (o & inner & c & Ho & Hne & _). split.
  - rewrite Ho. destruct inner as [|x inner]; [contradiction|].
    vm_compute. intros [= _ _ H]. destruct inner; discriminate.
  - exists o, inner, c. split; assumption.
Qed.

(** C4, counterexample: the span "[abc}", opened by a bracket and closed by
    a brace, is a token and yields a field. *)
Lemma C4_mismatched_delimiters_counterexample :
  exists f,
    extractFields (js "[abc}") = Some [f] /\
    original f = js "[abc}" /\ placeholder f = js "abc".
Proof. eexists. repeat split; vm_compute; reflexivity. Qed.

(** C4, amended: the tokens that [extractFields] recognizes are the
    leftmost, non-overlapping spans made of an opener ("[" or "{"), one unit
    or more none of which is "]", "{" or "}", and a closer ("]" or "}"); the
    closer need not pair with the opener and "[" may stand in the inner
    text.  The fields are, in order, those of the tokens that are not
    excluded. *)
Theorem C4_tokens_recognized :
  forall content,
    exists ms fields,
      Scan 0 content ms /\ (forall ms', Scan 0 content ms' -> ms' = ms) /\
      extractFields content = Some fields /\
      List.map original fields =
        List.map (fun m : rmatch => m.1.2)
          (List.filter (fun m : rmatch => negb (excluded m.2)) ms).
Proof.
  intros content.
  destruct (extractFields_fields content) as (ms & fields & Hscan & Hfs & Horig & _).
  exists ms, fields. repeat split; try assumption.
  intros ms' Hscan'. exact (Scan_unique _ _ _ _ Hscan' Hscan).
Qed.

(** C5, counterexample: a heading in the middle of a line cuts the body.
    In "a【T】b" the heading starts at index 1, after the unit "a", and the
    body is split there into two sections. *)
Lemma C5_heading_inside_line_counterexample :
  splitAtHeadings (js "a【T】b") = [js "a"; js "【T】b"] /\
  nth 0 (js "a【T】b") 0 <> LF /\
  parsePromptSections (js "a【T】b") =
    [mkSection (js "あなたの役割") (js "a") (js "🤖");
     mkSection (js "T") (js "b") (js "📄")].
Proof.
  split; [vm_compute; reflexivity|].
  split; [vm_compute; discriminate | vm_compute; reflexivity].
Qed.

(** C5, amended: the body is cut at every index other than 0 where a
    heading (the opening bracket, a title of one unit or more, the closing
    bracket) starts, at the beginning of a line or not, and nowhere else;
    the cut removes nothing and every chunk after the first starts with the
    opening bracket. *)
Theorem C5_split_at_every_heading :
  forall content,
    concat (splitAtHeadings content) = content /\
    (forall q,
        In q (boundaries 0 (splitAtHeadings content)) <->
        (0 < q < length content)%nat /\
        exists t rest,
          skipn q content = LLENT :: t ++ RLENT :: rest /\ t <> [] /\ ~ In RLENT t) /\
    Forall (fun p => exists r, p = LLENT :: r) (tl (splitAtHeadings content)).
Proof.
  intros content. split; [apply splitAtHeadings_concat|].
  split; [|apply splitAtHeadings_tail].
  intros q. rewrite splitAtHeadings_boundaries.
  split; intros [Hq Hh]; (split; [exact Hq|]).
  - destruct (headingAt (skipn q content)) as [[t rest]|] eqn:He; [|contradiction].
    exists t, rest. apply headingAt_Some. exact He.
  - destruct Hh as (t & rest & Hh). apply headingAt_Some in Hh. rewrite Hh. discriminate.
Qed.

(** C6: a token whose inner text starts with a circled number or a digit,
    or is one of the two reserved words, gives no field: there are as many
    fields as tokens that are not excluded, and the token of each field is
    not excluded.  The body of the exclusion scenario has no field. *)
Theorem C6_excluded_tokens_skipped :
  (forall inner,
      excluded inner = true <->
      (exists c r, inner = c :: r /\ (0x2460 <= c <= 0x2469 \/ 48 <= c <= 57)) \/
      inner = js "条件" \/ inner = js "出力形式") /\
  (forall content,
      exists ms fields,
        Scan 0 content ms /\ extractFields content = Some fields /\
        length fields =
          length (List.filter (fun m : rmatch => negb (excluded m.2)) ms) /\
        Forall (fun f => exists o inner c,
                    original f = o :: inner ++ [c] /\ excluded inner = false) fields) /\
  extractFields (js "[条件] [1 done] {出力形式}") = Some [].
Proof.
  split; [exact excluded_iff|]. split; [|vm_compute; reflexivity].
  intros content.
  destruct (extractFields_fields content) as (ms & fields & Hscan & Hfs & Horig & Hall).
  exists ms, fields. repeat split; try assumption.
  - rewrite <- (length_map original), Horig, length_map. reflexivity.
  - eapply Forall_impl; [exact Hall|]. simpl.
    intros f (o & inner & c & Ho & _ & Hex). exists o, inner, c. split; assumption.
Qed.

(** C7: the body "Describe: [例：a short summary]" has one field, with the
    label "Describe" and the placeholder "a short summary". *)
Theorem C7_example_placeholder :
  exists f,
    extractFields (js "Describe: [例：a short summary]") = Some [f] /\
    label f = js "Describe" /\ placeholder f = js "a short summary".
Proof. eexists. repeat split; vm_compute; reflexivity. Qed.

(** C8, counterexample: the body "[a[b]" has an opening bracket that is
    never closed, and still yields a field, whose token holds that bracket;
    a value for the field replaces all of it. *)
Lemma C8_unbalanced_brackets_counterexample :
  exists f,
    extractFields (js "[a[b]") = Some [f] /\
    original f = js "[a[b]" /\
    buildPrompt (js "[a[b]") [f] {[ id f := js "x" ]} = js "x".
Proof. eexists. repeat split; vm_compute; reflexivity. Qed.

(** C8, amended: the three functions return on every string.  The loop of
    [extractFields] returns within as many evaluations of its condition as
    the content has code units, and one more, and more fuel gives the same
    fields; [buildPrompt] and [parsePromptSections] are folds over finite
    arrays, and there are no more sections than code units, and one.  The
    empty string gives no field and no section.  A content in which no
    token starts (no placeholder, or brackets that do not make a token)
    gives no field, and a content in which the token of no field occurs is
    composed to itself. *)
Theorem C8_total_functions :
  forall content,
    (exists fields,
        extractFields content = Some fields /\
        forall fuel, (length content < fuel)%nat ->
                     extractLoop fuel content 0 0 [] = Some fields) /\
    (length (parsePromptSections content) <= S (length content))%nat /\
    (extractFields [] = Some [] /\ parsePromptSections [] = [] /\
     forall values, buildPrompt [] [] values = []) /\
    ((forall k, ~ tokenAtHead (skipn k content)) ->
     extractFields content = Some [] /\
     forall values, buildPrompt content [] values = content) /\
    (forall fields values,
        Forall (fun f => splitFirst (original f) content = None) fields ->
        buildPrompt content fields values = content).
Proof.
  intros content. repeat split.
  - destruct (extractFields_scan content) as (ms & _ & Hfs).
    eexists. split; [exact Hfs|]. intros fuel Hfuel.
    rewrite extractLoop_fuel by exact Hfuel. exact Hfs.
  - unfold parsePromptSections.
    pose proof (fold_sectionStep_length (splitAtHeadings content) []).
    pose proof (splitAtHeadings_length content). simpl in *. lia.
  - destruct (extractFields_scan content) as (ms & Hscan & Hfs).
    rewrite (Scan_no_token _ _ _ H Hscan) in Hfs. exact Hfs.
  - intros fields values Hall. unfold buildPrompt.
    induction Hall as [|f fields Hf _ IH]; simpl; [reflexivity|].
    unfold buildStep at 2. rewrite (replace_absent _ _ _ Hf). exact IH.
Qed.

(** C8 at the body "[abc", whose bracket is never closed. *)
Lemma C8_total_functions_witness :
  extractFields (js "[abc") = Some [] /\
  forall values, buildPrompt (js "[abc") [] values = js "[abc".
Proof.
  exact (proj1 (proj2 (proj2 (proj2 (C8_total_functions (js "[abc")))))
           (execFrom_None (js "[abc") 0 eq_refl)).
Defined.

(** C9: a value given by the user is read as a replacement template.  For
    the body "Hello [name]", the value "<$&>" gives "Hello <[name]>" and the
    value "$$5" gives "Hello $5", where putting the value in the place of the
    token gives "Hello <$&>" and "Hello $$5". *)
Theorem C9_dollar_patterns_interpreted :
  exists f,
    extractFields (js "Hello [name]") = Some [f] /\
    original f = js "[name]" /\
    buildPrompt (js "Hello [name]") [f] {[ id f := js "<$&>" ]} = js "Hello <[name]>" /\
    replaceLiteral (js "Hello [name]") (original f) (js "<$&>") = js "Hello <$&>" /\
    buildPrompt (js "Hello [name]") [f] {[ id f := js "$$5" ]} = js "Hello $5" /\
    replaceLiteral (js "Hello [name]") (original f) (js "$$5") = js "Hello $$5" /\
    buildPrompt (js "Hello [name]") [f] {[ id f := js "<$&>" ]}
      <> replaceLiteral (js "Hello [name]") (original f) (js "<$&>") /\
    buildPrompt (js "Hello [name]") [f] {[ id f := js "$$5" ]}
      <> replaceLiteral (js "Hello [name]") (original f) (js "$$5").
Proof.
  eexists. do 6 (split; [vm_compute; reflexivity|]).
  split; vm_compute; discriminate.
Qed.

(** C10: each token is looked for in the text as composed so far.  For the
    body "[a] and [b]", with "see [b]" for the first field and "Z" for the
    second, the second value lands inside the first one and the token "[b]"
    of the body stays: the result is "see Z and [b]", not
    "see [b] and Z". *)
Theorem C10_value_holding_a_later_token :
  exists f1 f2,
    extractFields (js "[a] and [b]") = Some [f1; f2] /\
    original f1 = js "[a]" /\ original f2 = js "[b]" /\
    buildPrompt (js "[a] and [b]") [f1]
      {[ id f1 := js "see [b]"; id f2 := js "Z" ]} = js "see [b] and [b]" /\
    buildPrompt (js "[a] and [b]") [f1; f2]
      {[ id f1 := js "see [b]"; id f2 := js "Z" ]} = js "see Z and [b]".
Proof. do 2 eexists. repeat split; vm_compute; reflexivity. Qed.

(* ===================================================================== *)
(** ** Further properties of the code *)
(* ===================================================================== *)

(** *** Numbers in template literals *)

Lemma bytes_inj s1 s2 : Lit.bytes s1 = Lit.bytes s2 -> s1 = s2.
Proof.
  unfold Lit.bytes. intros H.
  rewrite <- (string_of_list_ascii_of_string s1), <- (string_of_list_ascii_of_string s2).
  f_equal. revert H.
  generalize (list_ascii_of_string s1) (list_ascii_of_string s2).
  induction l as [|a l IH]; intros [|b l']; simpl; try discriminate; [reflexivity|].
  intros [= Hab Hl]. f_equal; [|apply IH; exact Hl].
  apply N2Z.inj in Hab.
  rewrite <- (ascii_N_embedding a), <- (ascii_N_embedding b), Hab. reflexivity.
Qed.

Lemma to_uint_not_Nil n : Nat.to_uint n <> Nil.
Proof.
  intros H. pose proof (Unsigned.of_to n) as Hn. rewrite H in Hn.
  simpl in Hn. subst n. discriminate.
Qed.

(** Different numbers are written differently. *)
Lemma numberToString_inj n m : numberToString n = numberToString m -> n = m.
Proof.
  unfold numberToString. intros H. apply bytes_inj in H.
  apply (f_equal NilZero.uint_of_string) in H.
  rewrite !NilZero.usu in H by apply to_uint_not_Nil.
  injection H as H. apply (f_equal Nat.of_uint) in H.
  rewrite !Unsigned.of_to in H. exact H.
Qed.

Lemma string_of_uint_digits d :
  Forall isDigit (Lit.bytes (NilEmpty.string_of_uint d)).
Proof.
  induction d; simpl; constructor; try assumption; unfold isDigit; simpl; lia.
Qed.

(** A number is written with decimal digits, one at least. *)
Lemma numberToString_digits n :
  Forall isDigit (numberToString n) /\ numberToString n <> [].
Proof.
  unfold numberToString, NilZero.string_of_uint.
  destruct (Nat.to_uint n) eqn:Hd.
  - exfalso. exact (to_uint_not_Nil n Hd).
  - split; [apply string_of_uint_digits | discriminate].
  - split; [apply string_of_uint_digits | discriminate].
  - split; [apply string_of_uint_digits | discriminate].
  - split; [apply string_of_uint_digits | discriminate].
  - split; [apply string_of_uint_digits | discriminate].
  - split; [apply string_of_uint_digits | discriminate].
  - split; [apply string_of_uint_digits | discriminate].
  - split; [apply string_of_uint_digits | discriminate].
  - split; [apply string_of_uint_digits | discriminate].
  - split; [apply string_of_uint_digits | discriminate].
Qed.

(** *** The fields of a content *)

Lemma id_makeField content i m0 m1 idn :
  id (makeField content i m0 m1 idn) = js "field_" ++ numberToString idn.
Proof. unfold makeField. repeat case_match; reflexivity. Qed.

Lemma fieldsOf_ids content idn ms :
  List.map id (fieldsOf content idn ms) =
  List.map (fun k => js "field_" ++ numberToString k)
    (seq idn (length (fieldsOf content idn ms))).
Proof.
  revert idn. induction ms as [|[[i m0] m1] ms IH]; intros idn; simpl; [reflexivity|].
  destruct (excluded m1); [apply IH|].
  simpl. rewrite id_makeField, IH. reflexivity.
Qed.

Lemma fieldsOf_In content idn ms f :
  In f (fieldsOf content idn ms) ->
  exists i m0 m1 k,
    In (i, m0, m1) ms /\ excluded m1 = false /\ f = makeField content i m0 m1 k.
Proof.
  intros Hin.
  assert (H : Forall (fun f => exists i m0 m1 k,
                          In (i, m0, m1) ms /\ excluded m1 = false /\
                          f = makeField content i m0 m1 k)
                (fieldsOf content idn ms)).
  { apply fieldsOf_Forall. intros i m0 m1 k Hm Hex.
    exists i, m0, m1, k. repeat split; assumption. }
  rewrite List.Forall_forall in H. exact (H f Hin).
Qed.

(** X1: the ids of the fields are "field_0", "field_1", ... in the order of
    the fields, and no two fields have the same id. *)
Theorem X1_field_ids_sequential_and_distinct :
  forall content,
    exists fields,
      extractFields content = Some fields /\
      List.map id fields =
        List.map (fun k => js "field_" ++ numberToString k) (seq 0 (length fields)) /\
      List.NoDup (List.map id fields).
Proof.
  intros content. destruct (extractFields_scan content) as (ms & _ & Hfs).
  eexists. split; [exact Hfs|].
  pose proof (fieldsOf_ids content 0 ms) as Hids. split; [exact Hids|].
  rewrite Hids. apply Finite.Injective_map_NoDup; [|apply List.seq_NoDup].
  intros a b Hab. apply app_inv_head in Hab. exact (numberToString_inj _ _ Hab).
Qed.

Lemma Scan_positions off s ms :
  Scan off s ms ->
  forall content, skipn off content = s ->
    Forall (fun m : rmatch => exists rest, skipn m.1.1 content = m.1.2 ++ rest) ms.
Proof.
  induction 1 as [|off s pre m0 m1 rest ms -> Ht _ _ IH]; intros content Hs;
    constructor; simpl.
  - exists rest. rewrite Nat.add_comm, <- skipn_skipn, Hs. apply drop_app_length.
  - apply IH.
    replace (off + length pre + length m0)%nat
      with ((length pre + length m0) + off)%nat by lia.
    rewrite <- skipn_skipn, Hs, app_assoc, <- length_app. apply drop_app_length.
Qed.

(** Where each field comes from: a token of the content that is not
    excluded, at the index that the match gives. *)
Lemma extractFields_provenance content :
  exists fields,
    extractFields content = Some fields /\
    Forall (fun f => exists i m0 m1 k rest,
                f = makeField content i m0 m1 k /\ tokenOf m0 m1 /\
                excluded m1 = false /\ skipn i content = m0 ++ rest) fields.
Proof.
  destruct (extractFields_scan content) as (ms & Hscan & Hfs).
  eexists. split; [exact Hfs|]. rewrite List.Forall_forall. intros f Hin.
  destruct (fieldsOf_In _ _ _ _ Hin) as (i & m0 & m1 & k & Hm & Hex & ->).
  pose proof (Scan_tokens _ _ _ Hscan) as Htok.
  pose proof (Scan_positions _ _ _ Hscan content eq_refl) as Hpos.
  rewrite List.Forall_forall in Htok, Hpos.
  destruct (Htok _ Hm) as [Ht _]. destruct (Hpos _ Hm) as [rest Hrest].
  exists i, m0, m1, k, rest. repeat split; assumption.
Qed.

(** *** Labels *)

Lemma trimStart_incl s : incl (trimStart s) s.
Proof.
  induction s as [|c s IH]; simpl; [intros x []|].
  destruct (isWhiteSpace c); [|intros x Hx; exact Hx].
  intros x Hx. right. exact (IH x Hx).
Qed.

Lemma trim_incl s : incl (trim s) s.
Proof.
  unfold trim, trimEnd. intros x Hx.
  apply trimStart_incl. apply in_rev. apply trimStart_incl. apply in_rev. exact Hx.
Qed.

Lemma stripLeadingMarker_incl s : incl (stripLeadingMarker s) s.
Proof.
  destruct s as [|c s]; simpl; [intros x []|].
  case_match; intros x Hx; [right|]; exact Hx.
Qed.

Lemma stripTrailingColon_incl s : incl (stripTrailingColon s) s.
Proof.
  unfold stripTrailingColon. destruct (rev s) as [|c r] eqn:Hr; [intros x Hx; exact Hx|].
  case_match; intros x Hx; [|exact Hx].
  apply in_rev. rewrite Hr. right. apply in_rev. exact Hx.
Qed.

(** [lastIndexOf] returns the last index at or before [from] that holds the
    unit, or [-1]. *)
Lemma lastIndexOf_spec s c from :
  -1 <= lastIndexOf s c from <= Z.of_nat from /\
  forall k : nat,
    lastIndexOf s c from < Z.of_nat k <= Z.of_nat from -> nth k s (-1) <> c.
Proof.
  induction from as [|from IH]; simpl lastIndexOf.
  - destruct (nth 0 s (-1) =? c) eqn:H0.
    + split; [lia | intros k Hk; lia].
    + split; [lia|]. intros k Hk. assert (k = 0%nat) as -> by lia.
      apply Z.eqb_neq. exact H0.
  - destruct (nth (S from) s (-1) =? c) eqn:H0.
    + split; [lia | intros k Hk; lia].
    + destruct IH as [Hr Hafter]. split; [lia|]. intros k Hk.
      destruct (Nat.eq_dec k (S from)) as [->|Hne].
      * apply Z.eqb_neq. exact H0.
      * apply Hafter. lia.
Qed.

(** The text before a token has no line feed in it. *)
Lemma beforeBracket_one_line content index :
  nth index content (-1) <> LF -> ~ In LF (beforeBracket content index).
Proof.
  intros Hopen Hin. unfold beforeBracket in Hin.
  apply trim_incl, stripTrailingColon_incl, stripLeadingMarker_incl, trim_incl in Hin.
  destruct (lastIndexOf_spec content LF index) as [Hr Hafter].
  set (r := lastIndexOf content LF index) in *.
  assert (Hlt : r < Z.of_nat index).
  { destruct (Z.eq_dec r (Z.of_nat index)) as [Heq|]; [|lia].
    exfalso. apply Hopen. subst r.
    clear - Heq. destruct index as [|index]; simpl in Heq.
    - destruct (nth 0 content (-1) =? LF) eqn:H0; [apply Z.eqb_eq; exact H0 | lia].
    - destruct (nth (S index) content (-1) =? LF) eqn:H0; [apply Z.eqb_eq; exact H0|].
      pose proof (lastIndexOf_spec content LF index) as [Hb _]. lia. }
  unfold substring in Hin.
  rewrite Nat.min_l, Nat.max_r in Hin by lia.
  apply (In_nth _ _ (-1)) in Hin as (j & Hj & Hnth).
  rewrite length_firstn in Hj. rewrite nth_firstn, nth_skipn in Hnth.
  destruct (j <? index - Z.to_nat (r + 1))%nat eqn:Hjn; [|unfold LF in Hnth; lia].
  apply Nat.ltb_lt in Hjn. apply (Hafter (Z.to_nat (r + 1) + j)%nat); [lia | exact Hnth].
Qed.

Lemma opener_not_LF o : isOpener o = true -> o <> LF.
Proof.
  unfold isOpener, LBRACK, LBRACE, LF. intros H ->. discriminate.
Qed.

(** X2: every field has a label that is not empty and has no line feed in
    it (the text before the token on its line, or "入力 N"), and a hint that
    is not empty. *)
Theorem X2_labels_and_hints :
  forall content,
    exists fields,
      extractFields content = Some fields /\
      Forall (fun f => label f <> [] /\ ~ In LF (label f) /\ hint f <> []) fields.
Proof.
  intros content.
  destruct (extractFields_provenance content) as (fields & Hfs & Hall).
  exists fields. split; [exact Hfs|].
  eapply Forall_impl; [exact Hall|]. simpl.
  intros f (i & m0 & m1 & k & rest & -> & Ht & _ & Hpos).
  assert (Hlabel : label (makeField content i m0 m1 k) =
                   orElse (beforeBracket content i) (js "入力 " ++ numberToString (k + 1))).
  { unfold makeField. repeat case_match; reflexivity. }
  assert (Hopen : nth i content (-1) <> LF).
  { destruct Ht as (o & c & -> & Ho & _).
    rewrite <- (Nat.add_0_r i), <- nth_skipn, Hpos. simpl.
    apply opener_not_LF. exact Ho. }
  rewrite Hlabel. unfold orElse. repeat split.
  - destruct (beforeBracket content i); simpl; discriminate.
  - destruct (beforeBracket content i) as [|c b] eqn:Hb.
    + simpl. intros [H|[H|[H|H]]]; try discriminate.
      destruct (numberToString_digits (k + 1)) as [Hd _].
      rewrite List.Forall_forall in Hd. specialize (Hd _ H).
      unfold isDigit, LF in Hd. lia.
    + change (~ In LF (c :: b)). rewrite <- Hb.
      apply beforeBracket_one_line. exact Hopen.
  - destruct Ht as (o & c & _ & _ & Hne & _).
    unfold makeField. destruct m1 as [|x m1]; [contradiction|].
    repeat case_match; simplify_eq; simpl; discriminate.
Qed.

Lemma Scan_interleave content off s ms :
  Scan off s ms ->
  forall idn, exists gaps tail,
    length gaps = length (fieldsOf content idn ms) /\
    s = interleave gaps (List.map original (fieldsOf content idn ms)) tail.
Proof.
  induction 1 as [off s|off s pre m0 m1 rest ms -> Ht _ _ IH]; intros idn.
  - exists [], s. split; reflexivity.
  - simpl fieldsOf. destruct (excluded m1).
    + destruct (IH idn) as (gaps & tail & Hlen & ->).
      destruct gaps as [|g gaps].
      * exists [], (pre ++ m0 ++ tail). split; [exact Hlen|].
        destruct (fieldsOf content idn ms); reflexivity.
      * destruct (fieldsOf content idn ms) as [|f fs]; [discriminate|].
        exists ((pre ++ m0 ++ g) :: gaps), tail. split; [exact Hlen|].
        simpl. rewrite <- !app_assoc. reflexivity.
    + destruct (IH (S idn)) as (gaps & tail & Hlen & ->).
      exists (pre :: gaps), tail. split; [simpl; rewrite Hlen; reflexivity|].
      simpl. rewrite original_makeField. reflexivity.
Qed.

(** X3: the tokens of the fields stand in the content in the order of the
    fields and do not overlap: the content is a gap, the first token, a gap,
    the second token, and so on, and a tail. *)
Theorem X3_tokens_in_order_without_overlap :
  forall content,
    exists fields gaps tail,
      extractFields content = Some fields /\
      length gaps = length fields /\
      content = interleave gaps (List.map original fields) tail.
Proof.
  intros content. destruct (extractFields_scan content) as (ms & Hscan & Hfs).
  destruct (Scan_interleave content _ _ _ Hscan 0%nat) as (gaps & tail & Hlen & Hc).
  exists (fieldsOf content 0 ms), gaps, tail. repeat split; assumption.
Qed.

(** *** Composition *)

Lemma includes_false s c : includes s c = false <-> ~ In c s.
Proof.
  unfold includes. split.
  - intros H Hin. apply not_true_iff_false in H. apply H.
    apply existsb_exists. exists c. split; [exact Hin | apply Z.eqb_refl].
  - intros H. apply not_true_iff_false. intros He.
    apply existsb_exists in He as (x & Hin & Hx). apply Z.eqb_eq in Hx. subst x.
    exact (H Hin).
Qed.

Lemma splitFirst_unfold pat s :
  splitFirst pat s =
  if startsWith s pat then Some ([], skipn (length pat) s)
  else match s with
       | [] => None
       | c :: s' =>
           match splitFirst pat s' with
           | Some (before, after) => Some (c :: before, after)
           | None => None
           end
       end.
Proof. destruct s; reflexivity. Qed.

(** [splitFirst] finds an occurrence when there is one. *)
Lemma splitFirst_complete pat s :
  occursIn pat s -> exists before after, splitFirst pat s = Some (before, after).
Proof.
  intros (a & b & ->). induction a as [|c a IH]; rewrite splitFirst_unfold.
  - simpl. rewrite startsWith_prefix. eauto.
  - destruct (startsWith ((c :: a) ++ pat ++ b) pat); [eauto|].
    simpl. destruct IH as (before & after & ->). eauto.
Qed.

Lemma includesString_occursIn s q : includesString s q = true <-> occursIn q s.
Proof.
  unfold includesString. split.
  - destruct (splitFirst q s) as [[b a]|] eqn:Hs; [|discriminate].
    intros _. apply splitFirst_Some in Hs as [-> _]. exists b, a. reflexivity.
  - intros H. destruct (splitFirst_complete _ _ H) as (b & a & ->). reflexivity.
Qed.

(** The composed text depends on the values only through the values of the
    fields. *)
Lemma buildPrompt_ext content fields v1 v2 :
  Forall (fun f => valueFor v1 f = valueFor v2 f) fields ->
  buildPrompt content fields v1 = buildPrompt content fields v2.
Proof.
  unfold buildPrompt. intros Hall. revert content.
  induction Hall as [|f fields Hf _ IH]; intros content; simpl; [reflexivity|].
  unfold buildStep at 2 4. rewrite Hf. apply IH.
Qed.

(** Fields that have no value and no dollar in their token change nothing. *)
Lemma fold_buildStep_unfilled values fields text :
  Forall (fun g => valueFor values g = original g /\ ~ In DOLLAR (original g)) fields ->
  fold_left (buildStep values) fields text = text.
Proof.
  intros Hall. revert text.
  induction Hall as [|g fields [Hv Hd] _ IH]; intros text; simpl; [reflexivity|].
  unfold buildStep at 2. rewrite Hv, (replace_plain _ _ _ Hd), replaceLiteral_self.
  apply IH.
Qed.

Lemma extractFields_Forall content fields :
  extractFields content = Some fields ->
  Forall (fun f => exists i m0 m1 k rest,
              f = makeField content i m0 m1 k /\ tokenOf m0 m1 /\
              excluded m1 = false /\ skipn i content = m0 ++ rest) fields.
Proof.
  intros Hfs. destruct (extractFields_provenance content) as (fields' & Hfs' & Hall).
  rewrite Hfs in Hfs'. injection Hfs' as <-. exact Hall.
Qed.

(** The token of a field occurs in the content. *)
Lemma extractFields_occurs content fields f :
  extractFields content = Some fields -> In f fields -> occursIn (original f) content.
Proof.
  intros Hfs Hin. pose proof (extractFields_Forall _ _ Hfs) as Hall.
  rewrite List.Forall_forall in Hall.
  destruct (Hall _ Hin) as (i & m0 & m1 & k & rest & -> & _ & _ & Hpos).
  rewrite original_makeField. exists (firstn i content), rest.
  rewrite <- Hpos. symmetry. apply firstn_skipn.
Qed.

Lemma occursIn_incl q s : occursIn q s -> incl q s.
Proof.
  intros (a & b & ->) x Hx. apply in_or_app. right. apply in_or_app. left. exact Hx.
Qed.

Lemma extractFields_ids_NoDup content fields :
  extractFields content = Some fields -> List.NoDup (List.map id fields).
Proof.
  intros Hfs. destruct (extractFields_scan content) as (ms & _ & Hfs').
  rewrite Hfs in Hfs'. injection Hfs' as ->.
  rewrite fieldsOf_ids. apply Finite.Injective_map_NoDup; [|apply List.seq_NoDup].
  intros a b Hab. apply app_inv_head in Hab. exact (numberToString_inj _ _ Hab).
Qed.

(** X4: a template body without a dollar sign, composed with its own fields
    and no value, is the body itself. *)
Theorem X4_no_values_gives_body_back :
  forall body,
    includes body DOLLAR = false ->
    exists fields, extractFields body = Some fields /\ buildPrompt body fields ∅ = body.
Proof.
  intros body Hno. apply buildPrompt_identity_without_dollar.
  apply includes_false. exact Hno.
Qed.

(** X4 at a body with two tokens. *)
Lemma X4_no_values_gives_body_back_witness :
  exists fields,
    extractFields (js "Dear [name], about {topic}.") = Some fields /\
    buildPrompt (js "Dear [name], about {topic}.") fields ∅
      = js "Dear [name], about {topic}.".
Proof.
  apply (X4_no_values_gives_body_back (js "Dear [name], about {topic}.")).
  reflexivity.
Defined.

(** X5: in a body without a dollar sign, a value without a dollar sign given
    for one field alone takes the place of the first occurrence of the
    token of that field, and the rest of the body stays as it is. *)
Theorem X5_one_value_replaces_first_occurrence :
  forall body fields f v,
    extractFields body = Some fields ->
    In f fields ->
    includes body DOLLAR = false ->
    includes v DOLLAR = false ->
    v <> [] ->
    exists before after,
      body = before ++ original f ++ after /\
      (forall k, (k < length before)%nat ->
                 startsWith (skipn k body) (original f) = false) /\
      buildPrompt body fields {[ id f := v ]} = before ++ v ++ after.
Proof.
  intros body fields f v Hfs Hin Hbody Hv Hne.
  apply includes_false in Hbody. apply includes_false in Hv.
  destruct (splitFirst_complete _ _ (extractFields_occurs _ _ _ Hfs Hin))
    as (before & after & Hsplit).
  exists before, after.
  destruct (splitFirst_Some _ _ _ _ Hsplit) as [Hbody_eq Hfirst].
  split; [exact Hbody_eq|]. split; [exact Hfirst|].
  assert (Hplain : forall g, In g fields -> ~ In DOLLAR (original g)).
  { intros g Hg Hd. apply Hbody.
    exact (occursIn_incl _ _ (extractFields_occurs _ _ _ Hfs Hg) _ Hd). }
  pose proof (extractFields_ids_NoDup _ _ Hfs) as Hnd.
  destruct (in_split _ _ Hin) as (l1 & l2 & ->).
  rewrite map_app in Hnd. simpl in Hnd. apply NoDup_remove_2 in Hnd.
  assert (Hother : forall g, In g (l1 ++ l2) ->
             valueFor {[ id f := v ]} g = original g /\ ~ In DOLLAR (original g)).
  { intros g Hg. split.
    - unfold valueFor. rewrite lookup_singleton_ne; [reflexivity|].
      intros Heq. apply Hnd. rewrite <- map_app, Heq. apply in_map. exact Hg.
    - apply Hplain. apply in_app_or in Hg as [Hg|Hg]; apply in_or_app;
        [left | right; right]; exact Hg. }
  unfold buildPrompt. rewrite fold_left_app. simpl.
  rewrite (fold_buildStep_unfilled _ l1).
  2:{ rewrite List.Forall_forall. intros g Hg. apply Hother. apply in_or_app. left. exact Hg. }
  rewrite (fold_buildStep_unfilled _ l2).
  2:{ rewrite List.Forall_forall. intros g Hg. apply Hother. apply in_or_app. right. exact Hg. }
  unfold buildStep, valueFor. rewrite lookup_singleton_eq. simpl.
  unfold orElse. destruct v as [|c v]; [contradiction|]. simpl truthy. cbv iota.
  rewrite (replace_plain _ _ _ Hv). unfold replaceLiteral. rewrite Hsplit. reflexivity.
Qed.

(** X5 at a body with two fields, the second one being given a value. *)
Lemma X5_one_value_replaces_first_occurrence_witness :
  exists before after,
    js "Dear [name], about {topic}." = before ++ js "{topic}" ++ after /\
    (forall k, (k < length before)%nat ->
               startsWith (skipn k (js "Dear [name], about {topic}.")) (js "{topic}") = false) /\
    buildPrompt (js "Dear [name], about {topic}.")
      [mkField (js "field_0") (js "Dear") (js "name") (js "name を入力してください") (js "[name]");
       mkField (js "field_1") (js "Dear [name], about") (js "topic")
         (js "topic を入力してください") (js "{topic}")]
      {[ js "field_1" := js "tea" ]} = before ++ js "tea" ++ after.
Proof.
  apply (X5_one_value_replaces_first_occurrence
           (js "Dear [name], about {topic}.")
           [mkField (js "field_0") (js "Dear") (js "name") (js "name を入力してください") (js "[name]");
            mkField (js "field_1") (js "Dear [name], about") (js "topic")
              (js "topic を入力してください") (js "{topic}")]
           (mkField (js "field_1") (js "Dear [name], about") (js "topic")
              (js "topic を入力してください") (js "{topic}"))
           (js "tea")).
  - vm_compute. reflexivity.
  - right. left. reflexivity.
  - reflexivity.
  - reflexivity.
  - discriminate.
Defined.

(** X6: a value that is the empty string counts as no value: the
    composition is the same as without the key. *)
Theorem X6_empty_value_is_no_value :
  forall content values k,
    exists fields,
      extractFields content = Some fields /\
      buildPrompt content fields (<[ k := [] ]> values)
        = buildPrompt content fields (delete k values).
Proof.
  intros content values k.
  destruct (extractFields_scan content) as (ms & _ & Hfs).
  eexists. split; [exact Hfs|]. apply buildPrompt_ext.
  rewrite List.Forall_forall. intros f _. unfold valueFor.
  destruct (decide (k = id f)) as [->|Hne].
  - rewrite lookup_insert_eq, lookup_delete_eq. reflexivity.
  - rewrite lookup_insert_ne, lookup_delete_ne by exact Hne. reflexivity.
Qed.

(** *** Trimming *)

Lemma trimStart_head s :
  match trimStart s with [] => True | c :: _ => isWhiteSpace c = false end.
Proof.
  induction s as [|c s IH]; simpl; [exact I|].
  destruct (isWhiteSpace c) eqn:Hc; [exact IH | exact Hc].
Qed.

Lemma trimStart_fixed c s : isWhiteSpace c = false -> trimStart (c :: s) = c :: s.
Proof. intros Hc. simpl. rewrite Hc. reflexivity. Qed.

Lemma trimStart_idem s : trimStart (trimStart s) = trimStart s.
Proof.
  pose proof (trimStart_head s) as H. destruct (trimStart s) as [|c t]; [reflexivity|].
  apply trimStart_fixed. exact H.
Qed.

Lemma trimStart_snoc s c :
  isWhiteSpace c = false -> trimStart (s ++ [c]) = trimStart s ++ [c].
Proof.
  intros Hc. induction s as [|x s IH]; simpl.
  - rewrite Hc. reflexivity.
  - destruct (isWhiteSpace x); [exact IH | reflexivity].
Qed.

Lemma trimEnd_cons c s : isWhiteSpace c = false -> trimEnd (c :: s) = c :: trimEnd s.
Proof.
  intros Hc. unfold trimEnd. simpl rev.
  rewrite (trimStart_snoc _ _ Hc), rev_app_distr. reflexivity.
Qed.

Lemma trimEnd_idem s : trimEnd (trimEnd s) = trimEnd s.
Proof. unfold trimEnd. rewrite rev_involutive, trimStart_idem. reflexivity. Qed.

(** Trimming a trimmed text changes nothing. *)
Lemma trim_idem s : trim (trim s) = trim s.
Proof.
  unfold trim. pose proof (trimStart_head s) as H.
  destruct (trimStart s) as [|c t]; [reflexivity|].
  rewrite (trimEnd_cons _ _ H), (trimStart_fixed _ _ H), (trimEnd_cons _ _ H), trimEnd_idem.
  reflexivity.
Qed.

(** *** Sections *)

Lemma headingAt_title s t rest :
  headingAt s = Some (t, rest) -> t <> [] /\ ~ In RLENT t.
Proof. intros H. apply headingAt_Some in H as (_ & Hne & Hno). split; assumption. Qed.

Lemma sectionStep_Forall (P : PromptSection -> Prop) sections part :
  (forall t body, t <> [] -> ~ In RLENT t -> body <> [] -> trimmed body ->
                  forall ic, P (mkSection t body ic)) ->
  Forall P sections -> Forall P (sectionStep sections part).
Proof.
  intros HP Hall. unfold sectionStep, markerMatch.
  destruct (headingAt part) as [[t rest]|] eqn:Hh.
  - destruct (headingAt_title _ _ _ Hh) as [Hne Hno].
    case_match; [|exact Hall].
    apply Forall_app. split; [exact Hall|]. constructor; [|constructor].
    apply HP; try assumption.
    + intros Hb. rewrite Hb in *. discriminate.
    + apply trim_idem.
  - case_match; [|exact Hall].
    apply Forall_app. split; [exact Hall|]. constructor; [|constructor].
    apply HP.
    + vm_compute. discriminate.
    + vm_compute. intros Hin. decompose [or] Hin; first [discriminate | contradiction].
    + intros Hb. rewrite Hb in *. discriminate.
    + apply trim_idem.
Qed.

(** X7: every section has a title that is not empty and has no closing
    lenticular bracket in it, and a text that is not empty and neither
    starts nor ends with white space. *)
Theorem X7_sections_well_formed :
  forall text,
    Forall (fun s => title s <> [] /\ ~ In RLENT (title s) /\
                     content s <> [] /\ trimmed (content s))
      (parsePromptSections text).
Proof.
  intros text. unfold parsePromptSections.
  generalize (splitAtHeadings text). intros chunks.
  assert (H : forall acc,
             Forall (fun s => title s <> [] /\ ~ In RLENT (title s) /\
                              content s <> [] /\ trimmed (content s)) acc ->
             Forall (fun s => title s <> [] /\ ~ In RLENT (title s) /\
                              content s <> [] /\ trimmed (content s))
               (fold_left sectionStep chunks acc)).
  { induction chunks as [|p chunks IH]; intros acc Hacc; simpl; [exact Hacc|].
    apply IH. apply sectionStep_Forall; [|exact Hacc].
    intros t body Ht Hno Hb Htr ic. simpl. repeat split; assumption. }
  apply H. constructor.
Qed.

Lemma headingAt_other d s : d <> LLENT -> headingAt (d :: s) = None.
Proof.
  intros Hd. unfold headingAt. apply Z.eqb_neq in Hd. rewrite Hd. reflexivity.
Qed.

Lemma headingAt_plain s : ~ In LLENT s -> headingAt s = None.
Proof.
  destruct s as [|d s]; [reflexivity|]. intros Hno.
  apply headingAt_other. intros ->. apply Hno. left. reflexivity.
Qed.

(** A text without an opening lenticular bracket is one chunk. *)
Lemma splitAtHeadings_plain s : ~ In LLENT s -> splitAtHeadings s = [s].
Proof.
  induction s as [|c s IH]; intros Hno; [reflexivity|]. simpl.
  assert (Hs : ~ In LLENT s) by (intros H; apply Hno; right; exact H).
  rewrite (IH Hs), (headingAt_plain _ Hs). reflexivity.
Qed.

Lemma splitAtHeadings_plain_tail c x : ~ In LLENT x -> splitAtHeadings (c :: x) = [c :: x].
Proof.
  intros Hno. simpl.
  rewrite (splitAtHeadings_plain _ Hno), (headingAt_plain _ Hno). reflexivity.
Qed.

Lemma splitAtHeadings_before_heading c x R :
  ~ In LLENT x -> headingAt R <> None ->
  splitAtHeadings (c :: x ++ R) = (c :: x) :: splitAtHeadings R.
Proof.
  intros Hno HR. revert c. induction x as [|d x IH]; intros c.
  - simpl. destruct (headingAt R); [reflexivity | contradiction].
  - change (splitAtHeadings (c :: (d :: x) ++ R))
      with (match headingAt (d :: x ++ R), splitAtHeadings (d :: x ++ R) with
            | Some _, chunks => [c] :: chunks
            | None, p :: ps => (c :: p) :: ps
            | None, [] => [[c]]
            end).
    rewrite headingAt_other by (intros ->; apply Hno; left; reflexivity).
    rewrite IH by (intros H; apply Hno; right; exact H). reflexivity.
Qed.

Lemma plainSection_spec sec :
  plainSection sec = true ->
  sec.1 <> [] /\ ~ In RLENT sec.1 /\ ~ In LLENT sec.1 /\ ~ In LLENT sec.2.
Proof.
  unfold plainSection. rewrite !andb_true_iff, !negb_true_iff, !includes_false.
  intros [[[Ht H1] H2] H3]. repeat split; try assumption.
  intros Hn. rewrite Hn in Ht. discriminate.
Qed.

Lemma renderSection_tail_plain sec :
  plainSection sec = true -> ~ In LLENT (sec.1 ++ RLENT :: LF :: sec.2).
Proof.
  intros Hp. apply plainSection_spec in Hp as (_ & _ & Ht & Hb).
  intros Hin. apply in_app_or in Hin as [Hin|[Hin|[Hin|Hin]]];
    [exact (Ht Hin) | discriminate | discriminate | exact (Hb Hin)].
Qed.

Lemma renderSection_heading sec R :
  plainSection sec = true ->
  headingAt (renderSection sec ++ R) = Some (sec.1, LF :: sec.2 ++ R).
Proof.
  intros Hp. apply plainSection_spec in Hp as (Hne & Hr & _ & _).
  apply headingAt_Some. repeat split; try assumption.
  unfold renderSection. simpl. rewrite <- !app_assoc. reflexivity.
Qed.

(** The sections that [renderSection] writes one after the other are the
    chunks of the split. *)
Lemma splitAtHeadings_rendered sec secs :
  forallb plainSection (sec :: secs) = true ->
  splitAtHeadings (concat (List.map renderSection (sec :: secs)))
    = List.map renderSection (sec :: secs) /\
  headingAt (concat (List.map renderSection (sec :: secs))) <> None.
Proof.
  revert sec. induction secs as [|sec' secs IH]; intros sec Hall;
    apply andb_true_iff in Hall as [Hp Hrest].
  - split.
    + change (concat (List.map renderSection [sec])) with (renderSection sec ++ []).
      rewrite app_nil_r. unfold renderSection.
      rewrite (splitAtHeadings_plain_tail _ _ (renderSection_tail_plain _ Hp)).
      reflexivity.
    + change (concat (List.map renderSection [sec])) with (renderSection sec ++ []).
      rewrite (renderSection_heading _ _ Hp). discriminate.
  - destruct (IH sec' Hrest) as [Hsplit Hhead].
    change (concat (List.map renderSection (sec :: sec' :: secs)))
      with (renderSection sec ++ concat (List.map renderSection (sec' :: secs))).
    split; [|rewrite (renderSection_heading _ _ Hp); discriminate].
    unfold renderSection at 1.
    change ((LLENT :: sec.1 ++ RLENT :: LF :: sec.2) ++
              concat (List.map renderSection (sec' :: secs)))
      with (LLENT :: (sec.1 ++ RLENT :: LF :: sec.2) ++
              concat (List.map renderSection (sec' :: secs))).
    rewrite (splitAtHeadings_before_heading _ _ _ (renderSection_tail_plain _ Hp) Hhead).
    rewrite Hsplit. reflexivity.
Qed.

Lemma sectionStep_app sections part :
  sectionStep sections part = sections ++ sectionStep [] part.
Proof.
  unfold sectionStep. repeat case_match; rewrite ?app_nil_r; reflexivity.
Qed.

Lemma fold_sectionStep chunks sections :
  fold_left sectionStep chunks sections
    = sections ++ flat_map (sectionStep []) chunks.
Proof.
  revert sections. induction chunks as [|p chunks IH]; intros sections; simpl.
  - rewrite app_nil_r. reflexivity.
  - rewrite IH, (sectionStep_app sections p), <- app_assoc. reflexivity.
Qed.

Lemma sectionStep_rendered sec :
  plainSection sec = true ->
  List.map shown (sectionStep [] (renderSection sec)) = shownOf sec.1 sec.2.
Proof.
  intros Hp. unfold sectionStep, markerMatch.
  rewrite <- (app_nil_r (renderSection sec)), (renderSection_heading _ _ Hp).
  rewrite app_nil_r. change (LF =? LF) with true. cbv iota.
  unfold shownOf. destruct (truthy (trim sec.2)); reflexivity.
Qed.

Lemma sectionStep_plain pre :
  ~ In LLENT pre ->
  List.map shown (sectionStep [] pre) = shownOf (js "あなたの役割") pre.
Proof.
  intros Hno. unfold sectionStep, markerMatch. rewrite (headingAt_plain _ Hno).
  unfold shownOf. destruct (truthy (trim pre)); reflexivity.
Qed.

Lemma flat_map_rendered secs :
  forallb plainSection secs = true ->
  List.map shown (flat_map (sectionStep []) (List.map renderSection secs))
    = flat_map (fun sec => shownOf sec.1 sec.2) secs.
Proof.
  induction secs as [|sec secs IH]; intros Hall; [reflexivity|].
  apply andb_true_iff in Hall as [Hp Hrest]. simpl.
  rewrite map_app, (sectionStep_rendered _ Hp), (IH Hrest). reflexivity.
Qed.

(** X8: a text written as a leading text without a heading and then headed
    sections, each heading on a line of its own, is read back as those
    sections, in order: the leading text under the title "あなたの役割", every
    text trimmed, and the blank ones left out. *)
Theorem X8_sections_read_back :
  forall pre secs,
    includes pre LLENT = false ->
    forallb plainSection secs = true ->
    List.map shown
      (parsePromptSections (pre ++ concat (List.map renderSection secs)))
    = shownOf (js "あなたの役割") pre ++ flat_map (fun sec => shownOf sec.1 sec.2) secs.
Proof.
  intros pre secs Hpre Hsecs. apply includes_false in Hpre.
  unfold parsePromptSections. rewrite fold_sectionStep. simpl app.
  destruct secs as [|sec secs].
  - simpl. rewrite !app_nil_r, (splitAtHeadings_plain _ Hpre). simpl.
    rewrite app_nil_r. apply sectionStep_plain. exact Hpre.
  - destruct (splitAtHeadings_rendered _ _ Hsecs) as [Hsplit Hhead].
    destruct pre as [|c pre].
    + rewrite app_nil_l, Hsplit, (flat_map_rendered _ Hsecs). reflexivity.
    + change ((c :: pre) ++ concat (List.map renderSection (sec :: secs)))
        with (c :: pre ++ concat (List.map renderSection (sec :: secs))).
      rewrite splitAtHeadings_before_heading;
        [|intros H; apply Hpre; right; exact H | exact Hhead].
      rewrite Hsplit.
      change (flat_map (sectionStep []) ((c :: pre) :: List.map renderSection (sec :: secs)))
        with (sectionStep [] (c :: pre)
                ++ flat_map (sectionStep []) (List.map renderSection (sec :: secs))).
      rewrite map_app, (sectionStep_plain _ Hpre), (flat_map_rendered _ Hsecs).
      reflexivity.
Qed.

(** X8 at a text with a leading line and two sections. *)
Lemma X8_sections_read_back_witness :
  List.map shown
    (parsePromptSections
       (js "Hello " ++ concat (List.map renderSection
                                 [(js "条件", js " Be brief. "); (js "Role", js "Helper")])))
  = shownOf (js "あなたの役割") (js "Hello ")
      ++ flat_map (fun sec => shownOf sec.1 sec.2)
           [(js "条件", js " Be brief. "); (js "Role", js "Helper")].
Proof.
  apply (X8_sections_read_back (js "Hello ")
           [(js "条件", js " Be brief. "); (js "Role", js "Helper")]).
  - reflexivity.
  - reflexivity.
Defined.

(** *** The component *)

Lemma occursIn_trans q q' s : occursIn q q' -> occursIn q' s -> occursIn q s.
Proof.
  intros (a & b & ->) (c & d & ->). exists (c ++ a), (b ++ d).
  rewrite <- !app_assoc. reflexivity.
Qed.

Lemma matchesFilter_spec cat q p :
  matchesFilter cat q p = true <->
  (cat = js "すべて" \/ Prompt.category p = cat) /\
  (q = [] \/ occursIn q (Prompt.title p) \/ occursIn q (Prompt.category p)
   \/ occursIn q (Prompt.content p)).
Proof.
  change (js "すべて") with SUBETE. unfold matchesFilter.
  rewrite andb_true_iff, !orb_true_iff, !bool_decide_eq_true, !includesString_occursIn.
  tauto.
Qed.

(** X9: the prompts shown are the prompts of the catalogue, in its order,
    whose category is the selected one (any, under "すべて") and whose title,
    category or content holds the search text (any, when it is empty); the
    description is not searched.  Under "すべて" with an empty search text the
    whole catalogue is shown. *)
Theorem X9_filtered_prompts :
  forall prompts,
    (forall cat q p,
        In p (filteredPrompts prompts cat q) <->
        In p prompts /\
        (cat = js "すべて" \/ Prompt.category p = cat) /\
        (q = [] \/ occursIn q (Prompt.title p) \/ occursIn q (Prompt.category p)
         \/ occursIn q (Prompt.content p))) /\
    (forall cat q, sublist (filteredPrompts prompts cat q) prompts) /\
    filteredPrompts prompts (js "すべて") [] = prompts.
Proof.
  intros prompts. split; [|split].
  - intros cat q p. unfold filteredPrompts.
    rewrite filter_In, matchesFilter_spec. reflexivity.
  - intros cat q. unfold filteredPrompts.
    induction prompts as [|p prompts IH]; simpl; [constructor|].
    destruct (matchesFilter cat q p); [apply sublist_skip | apply sublist_cons]; exact IH.
  - unfold filteredPrompts. induction prompts as [|p prompts IH]; [reflexivity|].
    simpl. rewrite IH. reflexivity.
Qed.

(** X10: a search text that holds the former one narrows the list: every
    prompt shown for the new text was shown for the former one. *)
Theorem X10_longer_search_narrows :
  forall prompts cat q q' p,
    includesString q' q = true ->
    In p (filteredPrompts prompts cat q') ->
    In p (filteredPrompts prompts cat q).
Proof.
  intros prompts cat q q' p Hq. apply includesString_occursIn in Hq.
  unfold filteredPrompts. rewrite !filter_In, !matchesFilter_spec.
  intros (Hin & Hcat & Hsearch). repeat split; try assumption.
  destruct Hsearch as [->|Hsearch].
  - left. destruct Hq as (a & b & Hq). destruct a; [|discriminate].
    destruct q; [reflexivity | discriminate].
  - right. destruct Hsearch as [H|[H|H]]; [left | right; left | right; right];
      exact (occursIn_trans _ _ _ Hq H).
Qed.

(** X10 at a catalogue of two prompts, the search text going from "mail" to
    "e-mail". *)
Lemma X10_longer_search_narrows_witness :
  In (Prompt.mk 2 (js "Write an e-mail") (js "Writing") [] (js "To: [name]"))
    (filteredPrompts
       [Prompt.mk 1 (js "Sort the mail") (js "Office") [] (js "Date: [date]");
        Prompt.mk 2 (js "Write an e-mail") (js "Writing") [] (js "To: [name]")]
       (js "すべて") (js "mail")).
Proof.
  apply (X10_longer_search_narrows
           [Prompt.mk 1 (js "Sort the mail") (js "Office") [] (js "Date: [date]");
            Prompt.mk 2 (js "Write an e-mail") (js "Writing") [] (js "To: [name]")]
           (js "すべて") (js "mail") (js "e-mail")).
  - reflexivity.
  - vm_compute. left. reflexivity.
Defined.

(** X11: what is typed in the text area of a field is what the text area
    shows, and the text areas of the fields with another id show what they
    showed. *)
Theorem X11_text_area_shows_what_was_typed :
  forall st f v,
    textareaValue (handleFieldChange (id f) v st) f = v /\
    forall g, id g <> id f ->
              textareaValue (handleFieldChange (id f) v st) g = textareaValue st g.
Proof.
  intros st f v. unfold textareaValue, handleFieldChange. simpl. split.
  - rewrite lookup_insert_eq. simpl. destruct v; reflexivity.
  - intros g Hne. rewrite lookup_insert_ne by (intros H; apply Hne; symmetry; exact H).
    reflexivity.
Qed.

(** X12: when a prompt whose content has no dollar sign is selected, the
    text to copy is the content of the prompt, the sections are those of the
    content, and every text area is empty, whatever was typed before. *)
Theorem X12_selecting_shows_the_template :
  forall st p,
    includes (Prompt.content p) DOLLAR = false ->
    completedPrompt (handleSelectPrompt p st) = Some (Prompt.content p) /\
    completedSections (handleSelectPrompt p st)
      = Some (parsePromptSections (Prompt.content p)) /\
    exists fields,
      currentFields (handleSelectPrompt p st) = Some fields /\
      Forall (fun f => textareaValue (handleSelectPrompt p st) f = []) fields.
Proof.
  intros st p Hno. apply includes_false in Hno.
  destruct (buildPrompt_identity_without_dollar _ Hno) as (fields & Hfs & Hid).
  assert (Hcp : completedPrompt (handleSelectPrompt p st) = Some (Prompt.content p)).
  { unfold completedPrompt, currentFields, handleSelectPrompt. simpl.
    rewrite Hfs, Hid. reflexivity. }
  split; [exact Hcp|]. split.
  - unfold completedSections. rewrite Hcp.
    destruct (Prompt.content p); reflexivity.
  - exists fields. split; [exact Hfs|].
    rewrite List.Forall_forall. intros f _. reflexivity.
Qed.

(** X12 at a prompt with one field, selected after something was typed for
    another prompt. *)
Lemma X12_selecting_shows_the_template_witness :
  completedPrompt
    (handleSelectPrompt (Prompt.mk 7 (js "Greeting") (js "Writing") [] (js "Dear [name]"))
       (handleFieldChange (js "field_0") (js "old") initialState))
    = Some (js "Dear [name]") /\
  completedSections
    (handleSelectPrompt (Prompt.mk 7 (js "Greeting") (js "Writing") [] (js "Dear [name]"))
       (handleFieldChange (js "field_0") (js "old") initialState))
    = Some (parsePromptSections (js "Dear [name]")) /\
  exists fields,
    currentFields
      (handleSelectPrompt (Prompt.mk 7 (js "Greeting") (js "Writing") [] (js "Dear [name]"))
         (handleFieldChange (js "field_0") (js "old") initialState)) = Some fields /\
    Forall (fun f =>
              textareaValue
                (handleSelectPrompt
                   (Prompt.mk 7 (js "Greeting") (js "Writing") [] (js "Dear [name]"))
                   (handleFieldChange (js "field_0") (js "old") initialState)) f = [])
      fields.
Proof.
  apply (X12_selecting_shows_the_template
           (handleFieldChange (js "field_0") (js "old") initialState)
           (Prompt.mk 7 (js "Greeting") (js "Writing") [] (js "Dear [name]"))).
  reflexivity.
Defined.



Lemma cardNumber_table :
  forallb (fun n =>
             bool_decide
               (padStart (numberToString n) 3 (js "0") =
                [48 + Z.of_nat (n / 100); 48 + Z.of_nat (n / 10 mod 10);
                 48 + Z.of_nat (n mod 10)]))
    (seq 0 1000) = true.
Proof. vm_compute. reflexivity. Qed.

(** X14: the number on the card of a prompt whose id is below 1000 has three
    digits: the hundreds, the tens and the units of the id. *)
Theorem X14_card_number_three_digits :
  forall p,
    (Prompt.id p < 1000)%nat ->
    cardNumber p =
    [48 + Z.of_nat (Prompt.id p / 100); 48 + Z.of_nat (Prompt.id p / 10 mod 10);
     48 + Z.of_nat (Prompt.id p mod 10)].
Proof.
  intros p Hlt. unfold cardNumber.
  pose proof cardNumber_table as H. rewrite forallb_forall in H.
  specialize (H (Prompt.id p)). rewrite bool_decide_eq_true in H.
  apply H. apply in_seq. lia.
Qed.

(** X14 at the prompt number 7, shown as "007". *)
Lemma X14_card_number_three_digits_witness :
  cardNumber (Prompt.mk 7 (js "Greeting") (js "Writing") [] (js "Dear [name]"))
  = [48 + Z.of_nat (7 / 100); 48 + Z.of_nat (7 / 10 mod 10); 48 + Z.of_nat (7 mod 10)].
Proof.
  apply (X14_card_number_three_digits
           (Prompt.mk 7 (js "Greeting") (js "Writing") [] (js "Dear [name]"))).
  simpl. lia.
Defined.
